(** * Google sign-in session core: loginModal.tsx and googleOAuth.ts

    A shallow embedding of the credential callback [handleGoogleCallback]
    and the script bootstrap of [loginModal.tsx], and of
    [loadGoogleOAuthScript] of [googleOAuth.ts].

    The asynchronous functions are written in a small free monad whose
    [Vis] nodes are the calls the source makes ([dispatch], [Cookies.set],
    [authApi.*], [message.*], ...).  An interpreter runs a program up to
    its next [await]; the continuation it returns is resumed when the
    awaited promise settles, which is how the single-threaded event loop
    interleaves overlapping logins.  Console output is not modelled. *)

From stdpp Require Import gmap strings list fin_maps.

Open Scope string_scope.
Open Scope list_scope.
Open Scope Z_scope.

(** ** JavaScript values *)

(** A thrown value: [new Error(message)], or the rejection reason of a
    collaborator's promise. *)
Inductive Thrown := ErrorObj (message : string).

(** How an awaited promise settles. *)
Inductive Settled (A : Type) :=
| Fulfilled (v : A)
| Rejected (e : Thrown).
Arguments Fulfilled {A} v.
Arguments Rejected {A} e.

(** Truthiness of a string: the empty string is falsy. *)
Definition truthy_string (s : string) : bool :=
  match s with
  | EmptyString => false
  | String _ _ => true
  end.

(** Truthiness of an optional string property ([undefined], [null] and
    the empty string are falsy). *)
Definition truthy_opt (s : option string) : bool :=
  match s with
  | Some v => truthy_string v
  | None => false
  end.

(** [a || b] on strings. *)
Definition js_or (a b : string) : string :=
  if truthy_string a then a else b.

(** ** auth.type.ts and the collaborators' payloads *)

(** [data] of [GoogleOAuthLoginResponse]; the callback tests both fields
    for truthiness, so either may be missing at run time. *)
Record TokenData := {
  accessToken : option string;
  refreshToken : option string
}.

Record GoogleOAuthLoginResponse := {
  statusCode : Z;
  message : option string;
  data : option TokenData
}.

(** What [authApi.getMe()] resolves to, as far as the callback reads it. *)
Record UserDetails := {
  me_id : Z;
  me_email : string;
  me_username : string;
  me_confirmed : bool;
  me_role : option Z
}.

(** The [user] payload of [loginSuccess]. *)
Record UserProfile := {
  id : Z;
  email : string;
  username : string;
  confirmed : bool;
  role_id : option Z
}.

(** [userDetails.role || undefined]: a missing role and role [0] both
    give [undefined]. *)
Definition role_or_undefined (r : option Z) : option Z :=
  match r with
  | Some n => if decide (n = 0) then None else Some n
  | None => None
  end.

(** [GoogleIdResponse] of googleOAuth.ts. *)
Record GoogleIdResponse := { credential : string }.

(** ** The redux auth slice *)

Inductive Status := idle | authenticating | authenticated | failed.

Record AuthState := {
  status : Status;
  user : option UserProfile;
  error : option string
}.

Inductive AuthAction :=
| loginStart
| loginSuccess (u : UserProfile)
| loginFailure (msg : string).

Definition initialAuthState : AuthState :=
  {| status := idle; user := None; error := None |}.

(** Modelled from the spec: the reducers of [@/redux/slices/authSlice]
    are not among the sources.  The spec's AuthState is
    [{status, user, error}]; [authenticated] holds exactly when [user] is
    set, [failed] implies no user and carries the last failure reason,
    and the error is cleared by the next attempt. *)
Definition authReducer (s : AuthState) (a : AuthAction) : AuthState :=
  match a with
  | loginStart =>
      {| status := authenticating; user := None; error := None |}
  | loginSuccess u =>
      {| status := authenticated; user := Some u; error := None |}
  | loginFailure msg =>
      {| status := failed; user := None; error := Some msg |}
  end.

(** Modelled from the spec: [getErrorMessage] of [@/utils/apiHandler] is
    not among the sources.  A failure is recorded with "the collaborator's
    surfaced error message", a human-readable message: the message of the
    thrown error. *)
Definition getErrorMessage (e : Thrown) : string :=
  match e with ErrorObj m => m end.

(** ** The browser and application state the callback acts on *)

(** A cookie as written by [Cookies.set(name, value, attributes)];
    [expires] is in days. *)
Record Cookie := {
  value : string;
  path : string;
  expires : Z;
  sameSite : string;
  secure : bool
}.

(** Everything observable that the component does, in program order. *)
Inductive Obs :=
| ODispatch (a : AuthAction)
| OCookieSet (name : string) (c : Cookie)
| OSetToken (tok : string)
| OGoogleOAuthLogin (cred : string)
| OGetMe
| OLoadScript
| OMessageSuccess (text : string) (secs : Z)
| OMessageError (text : string) (secs : Z)
| OOnSuccess
| OSetTimeout (ms : Z)
| OSetIsGoogleLoaded (b : bool).

Record World := {
  auth : AuthState;
  cookies : gmap string Cookie;
  apiToken : option string;
  protocol : string;
  isGoogleLoaded : bool;
  log : list Obs
}.

Definition record (o : Obs) (w : World) : World :=
  {| auth := auth w; cookies := cookies w; apiToken := apiToken w;
     protocol := protocol w; isGoogleLoaded := isGoogleLoaded w;
     log := log w ++ [o] |}.

Definition do_dispatch (a : AuthAction) (w : World) : World :=
  record (ODispatch a)
    {| auth := authReducer (auth w) a; cookies := cookies w;
       apiToken := apiToken w; protocol := protocol w;
       isGoogleLoaded := isGoogleLoaded w; log := log w |}.

Definition do_cookie_set (name : string) (c : Cookie) (w : World) : World :=
  record (OCookieSet name c)
    {| auth := auth w; cookies := <[name := c]> (cookies w);
       apiToken := apiToken w; protocol := protocol w;
       isGoogleLoaded := isGoogleLoaded w; log := log w |}.

Definition do_set_token (tok : string) (w : World) : World :=
  record (OSetToken tok)
    {| auth := auth w; cookies := cookies w; apiToken := Some tok;
       protocol := protocol w; isGoogleLoaded := isGoogleLoaded w;
       log := log w |}.

Definition do_set_loaded (b : bool) (w : World) : World :=
  record (OSetIsGoogleLoaded b)
    {| auth := auth w; cookies := cookies w; apiToken := apiToken w;
       protocol := protocol w; isGoogleLoaded := b; log := log w |}.

(** ** Async functions as programs *)

(** The calls of the component.  The three [Await*] calls return a
    promise that the component awaits; the others return at once. *)
Inductive Eff : Type -> Type :=
| Dispatch (a : AuthAction) : Eff unit
| CookiesSet (name val : string) (c_path : string) (c_expires : Z)
    (c_sameSite : string) (c_secure : bool) : Eff unit
| LocationProtocol : Eff string
| SetToken (tok : string) : Eff unit
| MessageSuccess (text : string) (secs : Z) : Eff unit
| MessageError (text : string) (secs : Z) : Eff unit
| OnSuccess : Eff unit
| SetTimeout (ms : Z) : Eff unit
| SetIsGoogleLoaded (b : bool) : Eff unit
| AwaitGoogleOAuthLogin (cred : string)
    : Eff (Settled (option GoogleOAuthLoginResponse))
| AwaitGetMe : Eff (Settled (option UserDetails))
| AwaitLoadScript : Eff (Settled unit).

Inductive Prog (A : Type) : Type :=
| Ret (a : A)
| Throw (e : Thrown)
| Vis {X : Type} (e : Eff X) (k : X -> Prog A).
Arguments Ret {A} a.
Arguments Throw {A} e.
Arguments Vis {A X} e k.

Fixpoint bind {A B : Type} (p : Prog A) (f : A -> Prog B) : Prog B :=
  match p with
  | Ret a => f a
  | Throw e => Throw e
  | Vis e k => Vis e (fun x => bind (k x) f)
  end.

(** [try { p } catch (error) { h error }] *)
Fixpoint try_catch {A : Type} (p : Prog A) (h : Thrown -> Prog A) : Prog A :=
  match p with
  | Ret a => Ret a
  | Throw e => h e
  | Vis e k => Vis e (fun x => try_catch (k x) h)
  end.

Definition call {X : Type} (e : Eff X) : Prog X := Vis e Ret.

(** The value of a settled promise, or its rejection reason thrown. *)
Definition unwrap {X : Type} (s : Settled X) : Prog X :=
  match s with
  | Fulfilled v => Ret v
  | Rejected err => Throw err
  end.

(** [await e]: a rejected promise throws at the await. *)
Definition await {X : Type} (e : Eff (Settled X)) : Prog X :=
  Vis e unwrap.

Declare Scope prog_scope.
Delimit Scope prog_scope with prog.
Notation "x <- p ;; q" := (bind p (fun x => q))
  (at level 100, p at next level, right associativity) : prog_scope.
Notation "p ;; q" := (bind p (fun _ => q))
  (at level 100, right associativity) : prog_scope.
Open Scope prog_scope.

(** ** loginModal.tsx *)

(** The [onSuccess] prop is a callback supplied by the caller: it may be
    absent, and when the callback calls it, it returns or it throws. *)
Inductive OnSuccessProp :=
| NotProvided
| Returns
| Throws (e : Thrown).

(** The props the callback closes over: the translation function, taken
    to be a total lookup, and [onSuccess].  The timer the callback arms on
    success (close the modal, navigate to [callbackUrl]) is recorded when
    it is armed; what it does when it fires is outside the session core. *)
Record LoginModalProps := {
  t : string -> string;
  onSuccess : OnSuccessProp
}.

(** The [if (userDetails) ... else throw] block after [authApi.getMe()]. *)
Definition after_getMe (props : LoginModalProps)
    (userDetails : option UserDetails) : Prog unit :=
  match userDetails with
  | Some ud =>
      call (Dispatch (loginSuccess
        {| id := me_id ud; email := me_email ud;
           username := me_username ud; confirmed := me_confirmed ud;
           role_id := role_or_undefined (me_role ud) |})) ;;
      call (MessageSuccess (t props "auth.loginSuccess") 3) ;;
      match onSuccess props with
      | NotProvided => Ret tt
      | Returns => call OnSuccess
      | Throws e => call OnSuccess ;; Throw e
      end ;;
      call (SetTimeout 1000)
  | None => Throw (ErrorObj "Failed to fetch user details")
  end.

(** The [if (result && result.data && result.data.accessToken)] block
    after [authApi.googleOAuthLogin]. *)
Definition after_login (props : LoginModalProps)
    (result : option GoogleOAuthLoginResponse) : Prog unit :=
  match result with
  | Some {| data := Some {| accessToken := Some access;
                            refreshToken := refresh |} |} =>
      if truthy_string access then
        proto <- call LocationProtocol ;;
        call (CookiesSet "access_token" access "/" 1 "Lax"
                (bool_decide (proto = "https:"))) ;;
        match refresh with
        | Some r =>
            if truthy_string r then
              proto' <- call LocationProtocol ;;
              call (CookiesSet "refresh_token" r "/" 7 "Lax"
                      (bool_decide (proto' = "https:")))
            else Ret tt
        | None => Ret tt
        end ;;
        call (SetToken access) ;;
        userDetails <- await AwaitGetMe ;;
        after_getMe props userDetails
      else Throw (ErrorObj "Invalid response from server")
  | _ => Throw (ErrorObj "Invalid response from server")
  end.

(** The [try] block of [handleGoogleCallback]. *)
Definition try_block (props : LoginModalProps)
    (response : GoogleIdResponse) : Prog unit :=
  call (Dispatch loginStart) ;;
  if negb (truthy_string (credential response)) then
    Throw (ErrorObj "No credential received from Google")
  else
    result <- await (AwaitGoogleOAuthLogin (credential response)) ;;
    after_login props result.

(** The [catch (error)] block of [handleGoogleCallback]. *)
Definition catch_block (error : Thrown) : Prog unit :=
  let errorMessage := getErrorMessage error in
  call (Dispatch (loginFailure errorMessage)) ;;
  call (MessageError errorMessage 5).

Definition handleGoogleCallback (props : LoginModalProps)
    (response : GoogleIdResponse) : Prog unit :=
  try_catch (try_block props response) catch_block.

(** [validateGoogleClientId] of googleOAuth.ts, on the configured
    [GOOGLE_CLIENT_ID]. *)
Definition validateGoogleClientId (GOOGLE_CLIENT_ID : string) : bool :=
  bool_decide (0 < Z.of_nat (String.length GOOGLE_CLIENT_ID))%Z
  && negb (bool_decide (GOOGLE_CLIENT_ID = "your_google_client_id_here")).

(** [initializeGoogleOAuth] inside the script-loading effect. *)
Definition initializeGoogleOAuth (props : LoginModalProps) : Prog unit :=
  try_catch
    (await AwaitLoadScript ;;
     call (SetIsGoogleLoaded true))
    (fun error =>
       call (MessageError
               (js_or (t props "auth.googleLoadFailed")
                      "Failed to load Google authentication") 5)).

(** The body of the script-loading [useEffect]. *)
Definition loadScriptEffect (props : LoginModalProps)
    (GOOGLE_CLIENT_ID : string) (isOpen : bool) : Prog unit :=
  if negb (validateGoogleClientId GOOGLE_CLIENT_ID) then Ret tt
  else if isOpen then initializeGoogleOAuth props
  else Ret tt.

(** ** Running a program up to its next await *)

(** Where a program stands when control returns to the event loop. *)
Inductive Suspended :=
| Finished
| Uncaught (e : Thrown)
| AwaitingLogin (cred : string)
    (k : Settled (option GoogleOAuthLoginResponse) -> Prog unit)
| AwaitingGetMe (k : Settled (option UserDetails) -> Prog unit)
| AwaitingScript (k : Settled unit -> Prog unit).

Fixpoint run (p : Prog unit) (w : World) : World * Suspended :=
  match p with
  | Ret _ => (w, Finished)
  | Throw e => (w, Uncaught e)
  | Vis e k =>
      match e in Eff X return (X -> Prog unit) -> World * Suspended with
      | Dispatch a => fun k => run (k tt) (do_dispatch a w)
      | CookiesSet name val c_path c_expires c_sameSite c_secure => fun k =>
          run (k tt)
            (do_cookie_set name
               {| value := val; path := c_path; expires := c_expires;
                  sameSite := c_sameSite; secure := c_secure |} w)
      | LocationProtocol => fun k => run (k (protocol w)) w
      | SetToken tok => fun k => run (k tt) (do_set_token tok w)
      | MessageSuccess text secs => fun k =>
          run (k tt) (record (OMessageSuccess text secs) w)
      | MessageError text secs => fun k =>
          run (k tt) (record (OMessageError text secs) w)
      | OnSuccess => fun k => run (k tt) (record OOnSuccess w)
      | SetTimeout ms => fun k => run (k tt) (record (OSetTimeout ms) w)
      | SetIsGoogleLoaded b => fun k => run (k tt) (do_set_loaded b w)
      | AwaitGoogleOAuthLogin cred => fun k =>
          (record (OGoogleOAuthLogin cred) w, AwaitingLogin cred k)
      | AwaitGetMe => fun k => (record OGetMe w, AwaitingGetMe k)
      | AwaitLoadScript => fun k => (record OLoadScript w, AwaitingScript k)
      end k
  end.

(** ** One login attempt run to completion *)

(** What the outside world feeds one attempt: the credential delivered by
    the identity library and how the two collaborator calls settle. *)
Record Attempt := {
  response : GoogleIdResponse;
  exchange : Settled (option GoogleOAuthLoginResponse);
  profile : Settled (option UserDetails)
}.

(** Resume a suspended attempt with the outcome it is waiting for. *)
Definition resume (a : Attempt) (s : Suspended) (w : World)
    : World * Suspended :=
  match s with
  | AwaitingLogin _ k => run (k (exchange a)) w
  | AwaitingGetMe k => run (k (profile a)) w
  | _ => (w, s)
  end.

Definition run_attempt (props : LoginModalProps) (a : Attempt) (w : World)
    : World * Suspended :=
  let '(w1, s1) := run (handleGoogleCallback props (response a)) w in
  let '(w2, s2) := resume a s1 w1 in
  resume a s2 w2.

(** The script-loading effect run to completion, given how the loader's
    promise settles. *)
Definition run_loadScriptEffect (props : LoginModalProps)
    (GOOGLE_CLIENT_ID : string) (isOpen : bool) (loaded : Settled unit)
    (w : World) : World * Suspended :=
  match run (loadScriptEffect props GOOGLE_CLIENT_ID isOpen) w with
  | (w1, AwaitingScript k) => run (k loaded) w1
  | r => r
  end.

(** ** Overlapping attempts on the event loop *)

(** The component keeps no per-attempt bookkeeping; the table of
    suspended attempts below is the event loop's. An attempt that has not
    started has no entry. *)
Record System := {
  world : World;
  tasks : gmap nat Suspended
}.

Definition boot (w : World) : System := {| world := w; tasks := ∅ |}.

(** One turn of the event loop given to attempt [i]: its first turn is the
    identity library invoking the callback, each later turn is the promise
    it awaits settling.  A finished attempt has nothing left to run. *)
Definition turn (props : LoginModalProps) (atts : list Attempt)
    (s : System) (i : nat) : System :=
  match atts !! i with
  | None => s
  | Some a =>
      let '(w', st) :=
        match tasks s !! i with
        | None => run (handleGoogleCallback props (response a)) (world s)
        | Some susp => resume a susp (world s)
        end in
      {| world := w'; tasks := <[i := st]> (tasks s) |}
  end.

Definition exec (props : LoginModalProps) (atts : list Attempt)
    (sched : list nat) (s : System) : System :=
  foldl (turn props atts) s sched.

(** Attempts in the order in which they started. *)
Definition start_order (sched : list nat) : list nat :=
  foldl (fun (acc : list nat) (i : nat) =>
           if decide (i ∈ acc) then acc else acc ++ [i]) [] sched.

Definition latest_started (sched : list nat) : option nat :=
  last (start_order sched).

(** ** googleOAuth.ts: the page the script loader acts on *)

Definition GSI_CLIENT_SRC : string := "https://accounts.google.com/gsi/client".

(** The promise each call of the loader returns. *)
Inductive PromiseState :=
| Pending
| Resolved
| RejectedWith (e : Thrown).

(** The fetch behind a script element: the browser fires [load] or
    [error] once, when the fetch ends. *)
Inductive FetchPhase := InFlight | Loaded | Errored.

(** The closures the loader registers on a script element, by what they
    do to the promise [p] of the call that registered them. *)
Inductive Handler :=
| ResolveNow (p : nat)
| RejectNow (p : nat) (msg : string)
| CheckAfterDelay (p : nat) (ms : Z).

Record ScriptElement := {
  src : string;
  phase : FetchPhase;
  on_load : list Handler;
  on_error : list Handler
}.

(** A pending [setTimeout]: the promise its callback settles. *)
Record Timer := { delay : Z; target : nat }.

Record Page := {
  google_accounts : bool;
  scripts : list ScriptElement;
  timers : list Timer;
  promises : list PromiseState
}.

(** [resolve]/[reject] of a promise: only the first call has an effect. *)
Definition settle (p : nat) (st : PromiseState) (pg : Page) : Page :=
  match promises pg !! p with
  | Some Pending =>
      {| google_accounts := google_accounts pg; scripts := scripts pg;
         timers := timers pg; promises := <[p := st]> (promises pg) |}
  | _ => pg
  end.

(** [document.querySelector('script[src="..."]')]: the first matching
    element in document order, with its position. *)
Definition querySelector (pg : Page) : option (nat * ScriptElement) :=
  list_find (fun el => src el = GSI_CLIENT_SRC) (scripts pg).

Definition set_scripts (l : list ScriptElement) (pg : Page) : Page :=
  {| google_accounts := google_accounts pg; scripts := l;
     timers := timers pg; promises := promises pg |}.

(** [loadGoogleOAuthScript()]: the page after the promise executor has
    run, and the promise returned. *)
Definition loadGoogleOAuthScript (pg : Page) : Page * nat :=
  let p := length (promises pg) in
  let pg :=
    {| google_accounts := google_accounts pg; scripts := scripts pg;
       timers := timers pg; promises := promises pg ++ [Pending] |} in
  if google_accounts pg then (settle p Resolved pg, p)
  else
    match querySelector pg with
    | Some (i, existingScript) =>
        (set_scripts
           (<[i := {| src := src existingScript;
                      phase := phase existingScript;
                      on_load := on_load existingScript ++ [ResolveNow p];
                      on_error := on_error existingScript ++
                        [RejectNow p "Failed to load Google OAuth script"] |}]>
              (scripts pg)) pg, p)
    | None =>
        (set_scripts
           (scripts pg ++
              [{| src := GSI_CLIENT_SRC; phase := InFlight;
                  on_load := [CheckAfterDelay p 100];
                  on_error :=
                    [RejectNow p "Failed to load Google OAuth script"] |}])
           pg, p)
    end.

(** [isGoogleOAuthAvailable()] *)
Definition isGoogleOAuthAvailable (pg : Page) : bool := google_accounts pg.

(** Running one registered closure. *)
Definition run_handler (pg : Page) (h : Handler) : Page :=
  match h with
  | ResolveNow p => settle p Resolved pg
  | RejectNow p msg => settle p (RejectedWith (ErrorObj msg)) pg
  | CheckAfterDelay p ms =>
      {| google_accounts := google_accounts pg; scripts := scripts pg;
         timers := timers pg ++ [{| delay := ms; target := p |}];
         promises := promises pg |}
  end.

(** The body of the [setTimeout] callback of [script.onload]. *)
Definition timer_callback (p : nat) (pg : Page) : Page :=
  if google_accounts pg then settle p Resolved pg
  else settle p
         (RejectedWith
            (ErrorObj "Google OAuth API not available after script load")) pg.

(** What can happen on the page between two turns of the loader. *)
Inductive PageEvent :=
| CallLoader
| ScriptLoads (i : nat) (defines_api : bool)
| ScriptFails (i : nat)
| TimerFires (j : nat)
| ApiAppears.

Definition set_phase (ph : FetchPhase) (el : ScriptElement) : ScriptElement :=
  {| src := src el; phase := ph; on_load := on_load el;
     on_error := on_error el |}.

Definition page_step (pg : Page) (ev : PageEvent) : Page :=
  match ev with
  | CallLoader => fst (loadGoogleOAuthScript pg)
  | ScriptLoads i defines_api =>
      match scripts pg !! i with
      | Some el =>
          match phase el with
          | InFlight =>
              foldl run_handler
                {| google_accounts := google_accounts pg || defines_api;
                   scripts := <[i := set_phase Loaded el]> (scripts pg);
                   timers := timers pg; promises := promises pg |}
                (on_load el)
          | _ => pg
          end
      | None => pg
      end
  | ScriptFails i =>
      match scripts pg !! i with
      | Some el =>
          match phase el with
          | InFlight =>
              foldl run_handler
                (set_scripts (<[i := set_phase Errored el]> (scripts pg)) pg)
                (on_error el)
          | _ => pg
          end
      | None => pg
      end
  | TimerFires j =>
      match timers pg !! j with
      | Some tm =>
          timer_callback (target tm)
            {| google_accounts := google_accounts pg; scripts := scripts pg;
               timers := delete j (timers pg); promises := promises pg |}
      | None => pg
      end
  | ApiAppears =>
      {| google_accounts := true; scripts := scripts pg;
         timers := timers pg; promises := promises pg |}
  end.

Definition page_run (evs : list PageEvent) (pg : Page) : Page :=
  foldl page_step pg evs.

(** A page on which nothing has been loaded yet. *)
Definition fresh_page : Page :=
  {| google_accounts := false; scripts := []; timers := []; promises := [] |}.

(** ** Sample inputs *)

Definition props0 : LoginModalProps :=
  {| t := fun key => key; onSuccess := NotProvided |}.

(** A caller whose [onSuccess] throws. *)
Definition props_throwing : LoginModalProps :=
  {| t := fun key => key; onSuccess := Throws (ErrorObj "observer failed") |}.

Definition w0 : World :=
  {| auth := initialAuthState; cookies := ∅; apiToken := None;
     protocol := "https:"; isGoogleLoaded := false; log := [] |}.

Definition tokens_acc1_ref1 : Settled (option GoogleOAuthLoginResponse) :=
  Fulfilled (Some {| statusCode := 200; message := None;
                     data := Some {| accessToken := Some "acc1";
                                     refreshToken := Some "ref1" |} |}).

Definition tokens_acc1_only : Settled (option GoogleOAuthLoginResponse) :=
  Fulfilled (Some {| statusCode := 200; message := None;
                     data := Some {| accessToken := Some "acc1";
                                     refreshToken := None |} |}).

Definition alice : UserDetails :=
  {| me_id := 7; me_email := "a@b.com"; me_username := "alice";
     me_confirmed := true; me_role := None |}.

(** The end-to-end scenario. *)
Definition attempt_alice : Attempt :=
  {| response := {| credential := "cred123" |};
     exchange := tokens_acc1_ref1;
     profile := Fulfilled (Some alice) |}.

(** The exchange answers with an access token only. *)
Definition attempt_no_refresh : Attempt :=
  {| response := {| credential := "cred123" |};
     exchange := tokens_acc1_only;
     profile := Fulfilled (Some alice) |}.

(** The profile request is rejected by the transport. *)
Definition attempt_profile_rejected : Attempt :=
  {| response := {| credential := "cred123" |};
     exchange := tokens_acc1_ref1;
     profile := Rejected (ErrorObj "Network Error") |}.

(** The profile request resolves with nothing. *)
Definition attempt_profile_empty : Attempt :=
  {| response := {| credential := "cred123" |};
     exchange := tokens_acc1_ref1;
     profile := Fulfilled None |}.

(** The exchange is rejected. *)
Definition attempt_exchange_rejected : Attempt :=
  {| response := {| credential := "cred-old" |};
     exchange := Rejected (ErrorObj "Network Error");
     profile := Fulfilled None |}.

(** The exchange answers without an access token. *)
Definition attempt_no_access : Attempt :=
  {| response := {| credential := "cred123" |};
     exchange := Fulfilled (Some {| statusCode := 200; message := None;
                   data := Some {| accessToken := None;
                                   refreshToken := Some "ref1" |} |});
     profile := Fulfilled (Some alice) |}.

(** The identity library delivers an empty credential. *)
Definition attempt_empty_credential : Attempt :=
  {| response := {| credential := "" |};
     exchange := tokens_acc1_ref1;
     profile := Fulfilled (Some alice) |}.

(** ** How the callback's three segments run *)

(** The continuations the callback suspends with. *)
Definition cont_login (props : LoginModalProps)
    : Settled (option GoogleOAuthLoginResponse) -> Prog unit :=
  fun s => try_catch (bind (unwrap s) (after_login props)) catch_block.

Definition cont_getMe (props : LoginModalProps)
    : Settled (option UserDetails) -> Prog unit :=
  fun s => try_catch (bind (unwrap s) (after_getMe props)) catch_block.

(** The access token and the refresh token the callback finds usable in
    an exchange result. *)
Definition tokens_of (result : option GoogleOAuthLoginResponse)
    : option (string * option string) :=
  match result with
  | Some {| data := Some {| accessToken := Some access;
                            refreshToken := refresh |} |} =>
      if truthy_string access then
        Some (access, if truthy_opt refresh then refresh else None)
      else None
  | _ => None
  end.

(** The attribute set both cookies are written with. *)
Definition token_cookie (val : string) (days : Z) (w : World) : Cookie :=
  {| value := val; path := "/"; expires := days; sameSite := "Lax";
     secure := bool_decide (protocol w = "https:") |}.

(** The world after the catch block has run. *)
Definition fail_with (m : string) (w : World) : World :=
  record (OMessageError m 5) (do_dispatch (loginFailure m) w).

(** The world after the token-persisting statements have run. *)
Definition persist_tokens (access : string) (refresh : option string)
    (w : World) : World :=
  let w1 := do_cookie_set "access_token" (token_cookie access 1 w) w in
  let w2 := match refresh with
            | Some r => do_cookie_set "refresh_token" (token_cookie r 7 w) w1
            | None => w1
            end in
  do_set_token access w2.

Definition profile_of (ud : UserDetails) : UserProfile :=
  {| id := me_id ud; email := me_email ud; username := me_username ud;
     confirmed := me_confirmed ud;
     role_id := role_or_undefined (me_role ud) |}.

(** The world after the success branch has run, and after the catch
    block when [onSuccess] threw inside it. *)
Definition succeed_with (props : LoginModalProps) (ud : UserDetails)
    (w : World) : World :=
  let w1 := record (OMessageSuccess (t props "auth.loginSuccess") 3)
              (do_dispatch (loginSuccess (profile_of ud)) w) in
  match onSuccess props with
  | NotProvided => record (OSetTimeout 1000) w1
  | Returns => record (OSetTimeout 1000) (record OOnSuccess w1)
  | Throws e => fail_with (getErrorMessage e) (record OOnSuccess w1)
  end.

(** The exchange result carries a usable access token: the test
    [result && result.data && result.data.accessToken]. *)
Definition has_access_token
    (x : Settled (option GoogleOAuthLoginResponse)) : bool :=
  match x with
  | Fulfilled (Some r) =>
      match data r with
      | Some d => truthy_opt (accessToken d)
      | None => false
      end
  | _ => false
  end.

(** The error notifications among a run's observations. *)
Definition error_messages (l : list Obs) : list Obs :=
  List.filter
    (fun o => match o with OMessageError _ _ => true | _ => false end) l.

(** The cookie writes among a run's observations. *)
Definition cookie_writes (l : list Obs) : list Obs :=
  List.filter
    (fun o => match o with OCookieSet _ _ => true | _ => false end) l.

(** What the callback is observed to do once the profile request has
    settled. *)
Definition profile_obs (props : LoginModalProps)
    (p : Settled (option UserDetails)) : list Obs :=
  match p with
  | Fulfilled (Some ud) =>
      [ODispatch (loginSuccess (profile_of ud));
       OMessageSuccess (t props "auth.loginSuccess") 3] ++
      match onSuccess props with
      | NotProvided => [OSetTimeout 1000]
      | Returns => [OOnSuccess; OSetTimeout 1000]
      | Throws e =>
          [OOnSuccess; ODispatch (loginFailure (getErrorMessage e));
           OMessageError (getErrorMessage e) 5]
      end
  | Fulfilled None =>
      [ODispatch (loginFailure "Failed to fetch user details");
       OMessageError "Failed to fetch user details" 5]
  | Rejected e =>
      [ODispatch (loginFailure (getErrorMessage e));
       OMessageError (getErrorMessage e) 5]
  end.

(** The auth state the callback publishes once the profile request has
    settled. *)
Definition profile_state (props : LoginModalProps)
    (p : Settled (option UserDetails)) : AuthState :=
  match p with
  | Fulfilled (Some ud) =>
      match onSuccess props with
      | Throws e =>
          {| status := failed; user := None;
             error := Some (getErrorMessage e) |}
      | _ =>
          {| status := authenticated; user := Some (profile_of ud);
             error := None |}
      end
  | Fulfilled None =>
      {| status := failed; user := None;
         error := Some "Failed to fetch user details" |}
  | Rejected e =>
      {| status := failed; user := None;
         error := Some (getErrorMessage e) |}
  end.

(** The observations a run added to the log it started from. *)
Definition emitted (w w' : World) : list Obs :=
  drop (length (log w)) (log w').

(** Start-order precedence, for one set of attempts and one schedule:
    once every scheduled attempt has finished, the published auth state
    is the result of the attempt that started last. *)
Definition latest_started_wins (props : LoginModalProps)
    (atts : list Attempt) (sched : list nat) (w : World) : Prop :=
  let s := exec props atts sched (boot w) in
  (forall i, i ∈ sched -> tasks s !! i = Some Finished) ->
  forall n a, latest_started sched = Some n -> atts !! n = Some a ->
    auth (world s) = auth (fst (run_attempt props a w)).

(** A suspended attempt is where the callback's code can leave it: at
    the exchange call only with a non-empty credential, at the profile
    call only after an exchange that returned a usable access token. *)
Definition task_ok (props : LoginModalProps) (a : Attempt)
    (st : Suspended) : Prop :=
  match st with
  | Finished => True
  | AwaitingLogin cred k =>
      truthy_string (credential (response a)) = true /\
      k = cont_login props
  | AwaitingGetMe k =>
      truthy_string (credential (response a)) = true /\
      (exists result access refresh,
         exchange a = Fulfilled result /\
         tokens_of result = Some (access, refresh)) /\
      k = cont_getMe props
  | _ => False
  end.

Definition sys_ok (props : LoginModalProps) (atts : list Attempt)
    (s : System) : Prop :=
  forall i a st,
    atts !! i = Some a -> tasks s !! i = Some st -> task_ok props a st.

(** Two overlapping attempts: the first is slow and its exchange is
    rejected, the second is the end-to-end scenario. *)
Definition two_attempts : list Attempt :=
  [attempt_exchange_rejected; attempt_alice].

(** The second attempt starts while the first waits for its exchange,
    and runs to its end before the first one's exchange settles. *)
Definition overtaking : list nat := [0; 1; 1; 1; 0]%nat.

(** The promise a registered closure settles. *)
Definition handler_target (h : Handler) : nat :=
  match h with
  | ResolveNow p => p
  | RejectNow p _ => p
  | CheckAfterDelay p _ => p
  end.

(** Nothing that can still run on the page settles promise [p]: it is
    pending, no armed timer targets it, and the only script elements that
    carry closures for it are elements whose fetch has already ended. *)
Definition stranded (p : nat) (pg : Page) : Prop :=
  promises pg !! p = Some Pending /\
  Forall (fun tm => target tm <> p) (timers pg) /\
  Forall (fun el => phase el = InFlight ->
            Forall (fun h => handler_target h <> p)
                   (on_load el ++ on_error el))
         (scripts pg).

(** ** Further notions for the script loader *)

(** The script elements the loader's selector matches. *)
Definition gsi_elements (pg : Page) : list ScriptElement :=
  filter (fun el => src el = GSI_CLIENT_SRC) (scripts pg).

(** Every closure and every armed timer on the page belongs to a promise
    that has been handed out. *)
Definition page_wf (pg : Page) : Prop :=
  Forall (fun tm => (target tm < length (promises pg))%nat) (timers pg) /\
  Forall (fun el =>
            Forall (fun h => (handler_target h < length (promises pg))%nat)
                   (on_load el ++ on_error el))
         (scripts pg).

(** ** The bootstrap effect on a page *)

(** What an [await] on one of the loader's promises sees. *)
Definition promise_outcome (st : PromiseState) : option (Settled unit) :=
  match st with
  | Pending => None
  | Resolved => Some (Fulfilled tt)
  | RejectedWith e => Some (Rejected e)
  end.

(** The component together with the page: the runs of
    [initializeGoogleOAuth] that are suspended at
    [await loadGoogleOAuthScript()], each with the promise it awaits. *)
Record Bootstrap := {
  app : World;
  doc : Page;
  waiting : list (nat * (Settled unit -> Prog unit))
}.

(** Resume, in the order in which they suspended, the runs whose promise
    has settled.  [initializeGoogleOAuth] has no second await, so a
    resumed run ends. *)
Fixpoint deliver_to (pg : Page)
    (ws : list (nat * (Settled unit -> Prog unit))) (w : World)
    : World * list (nat * (Settled unit -> Prog unit)) :=
  match ws with
  | [] => (w, [])
  | (p, k) :: rest =>
      match promises pg !! p ≫= promise_outcome with
      | Some o => deliver_to pg rest (fst (run (k o) w))
      | None =>
          let '(w', rest') := deliver_to pg rest w in
          (w', (p, k) :: rest')
      end
  end.

Definition deliver (b : Bootstrap) : Bootstrap :=
  let '(w, ws) := deliver_to (doc b) (waiting b) (app b) in
  {| app := w; doc := doc b; waiting := ws |}.

(** The script-loading effect runs (the modal is rendered with [isOpen],
    or [isOpen] changed): [loadGoogleOAuthScript()] is called on the page
    when the effect's body reaches it. *)
Definition run_loadScript_effect (props : LoginModalProps)
    (GOOGLE_CLIENT_ID : string) (isOpen : bool) (b : Bootstrap)
    : Bootstrap :=
  match run (loadScriptEffect props GOOGLE_CLIENT_ID isOpen) (app b) with
  | (w1, AwaitingScript k) =>
      let '(pg, p) := loadGoogleOAuthScript (doc b) in
      deliver {| app := w1; doc := pg; waiting := waiting b ++ [(p, k)] |}
  | (w1, _) => {| app := w1; doc := doc b; waiting := waiting b |}
  end.

(** Something happens on the page; runs whose promise settled resume. *)
Definition on_page_event (b : Bootstrap) (ev : PageEvent) : Bootstrap :=
  deliver {| app := app b; doc := page_step (doc b) ev;
             waiting := waiting b |}.

Definition on_page_events (evs : list PageEvent) (b : Bootstrap)
    : Bootstrap :=
  foldl on_page_event b evs.

(** The continuation [initializeGoogleOAuth] suspends with. *)
Definition cont_script (props : LoginModalProps)
    : Settled unit -> Prog unit :=
  fun s =>
    try_catch (bind (unwrap s) (fun _ => call (SetIsGoogleLoaded true)))
      (fun error =>
         call (MessageError
                 (js_or (t props "auth.googleLoadFailed")
                        "Failed to load Google authentication") 5)).

(** ** Further notions for the credential callback *)

(** The API client's token is the one stored in the access-token
    cookie. *)
Definition api_token_in_sync (w : World) : Prop :=
  forall tok, apiToken w = Some tok ->
    exists c, cookies w !! "access_token" = Some c /\ value c = tok.

(** [w'] differs from [w] at most in the auth state, the two token
    cookies, the API token and the log. *)
Definition session_frame (w w' : World) : Prop :=
  (forall name, name <> "access_token" -> name <> "refresh_token" ->
     cookies w' !! name = cookies w !! name) /\
  protocol w' = protocol w /\
  isGoogleLoaded w' = isGoogleLoaded w /\
  exists l, log w' = log w ++ l.

(** How many turns a schedule gives to attempt [i]. *)
Definition turns_of (i : nat) (sched : list nat) : nat :=
  length (filter (fun j => j = i) sched).

(** The credentials passed to [authApi.googleOAuthLogin] in a log. *)
Definition exchange_calls (l : list Obs) : list string :=
  omap (fun o => match o with OGoogleOAuthLogin c => Some c | _ => None end) l.

(** The calls of [authApi.getMe] in a log. *)
Definition getMe_calls (l : list Obs) : list Obs :=
  List.filter (fun o => match o with OGetMe => true | _ => false end) l.

(** The actions dispatched in a log. *)
Definition dispatched (l : list Obs) : list AuthAction :=
  omap (fun o => match o with ODispatch a => Some a | _ => None end) l.

(** What the callback does in its success branch only: the success
    notification, the [onSuccess] callback and the close timer. *)
Definition success_effects (l : list Obs) : list Obs :=
  List.filter
    (fun o => match o with
              | OMessageSuccess _ _ | OOnSuccess | OSetTimeout _ => true
              | _ => false
              end) l.

(** The attempt reaches the success branch: a non-empty credential, a
    usable access token and a profile returned by [authApi.getMe()]. *)
Definition profile_fetched (a : Attempt) : bool :=
  truthy_string (credential (response a)) &&
  has_access_token (exchange a) &&
  match profile a with
  | Fulfilled (Some _) => true
  | _ => false
  end.

(** [isAuthenticated] as the rest of the application reads it. *)
Definition is_authenticated (s : AuthState) : bool :=
  match status s with
  | authenticated => true
  | _ => false
  end.

(** Closes a goal [x ∉ l] or a hypothesis [H : x ∈ l] on a literal list
    none of whose elements has the head constructor of [x]. *)
Ltac absurd_elem H :=
  repeat (apply elem_of_cons in H; destruct H as [H|H]; [discriminate H|]);
  apply elem_of_nil in H; destruct H.

Lemma run_catch_block e w :
  run (catch_block e) w = (fail_with (getErrorMessage e) w, Finished).
Proof. reflexivity. Qed.

Lemma run_handleGoogleCallback props r w :
  run (handleGoogleCallback props r) w =
  if truthy_string (credential r) then
    (record (OGoogleOAuthLogin (credential r)) (do_dispatch loginStart w),
     AwaitingLogin (credential r) (cont_login props))
  else
    (fail_with "No credential received from Google"
       (do_dispatch loginStart w), Finished).
Proof.
  unfold handleGoogleCallback, try_block.
  destruct (truthy_string (credential r)); reflexivity.
Qed.

Lemma run_cont_login props x w :
  run (cont_login props x) w =
  match x with
  | Rejected e => (fail_with (getErrorMessage e) w, Finished)
  | Fulfilled result =>
      match tokens_of result with
      | Some (access, refresh) =>
          (record OGetMe (persist_tokens access refresh w),
           AwaitingGetMe (cont_getMe props))
      | None => (fail_with "Invalid response from server" w, Finished)
      end
  end.
Proof.
  destruct x as [[[sc msg [[[access|] refresh]|]]|]|e]; try reflexivity.
  unfold cont_login, tokens_of; cbn [unwrap bind after_login].
  destruct (truthy_string access); [|reflexivity].
  destruct refresh as [r|]; [|reflexivity].
  cbn [truthy_opt]. destruct (truthy_string r); reflexivity.
Qed.

Lemma run_cont_getMe props x w :
  run (cont_getMe props x) w =
  (match x with
   | Rejected e => fail_with (getErrorMessage e) w
   | Fulfilled None => fail_with "Failed to fetch user details" w
   | Fulfilled (Some ud) => succeed_with props ud w
   end, Finished).
Proof.
  destruct x as [[ud|]|e]; try reflexivity.
  unfold cont_getMe, succeed_with; cbn [unwrap bind after_getMe].
  destruct (onSuccess props); reflexivity.
Qed.

(** The whole attempt, segment by segment. *)
Lemma run_attempt_eq props a w :
  run_attempt props a w =
  let cred := credential (response a) in
  if truthy_string cred then
    let w1 := record (OGoogleOAuthLogin cred) (do_dispatch loginStart w) in
    match exchange a with
    | Rejected e => (fail_with (getErrorMessage e) w1, Finished)
    | Fulfilled result =>
        match tokens_of result with
        | Some (access, refresh) =>
            let w2 := record OGetMe (persist_tokens access refresh w1) in
            (match profile a with
             | Rejected e => fail_with (getErrorMessage e) w2
             | Fulfilled None => fail_with "Failed to fetch user details" w2
             | Fulfilled (Some ud) => succeed_with props ud w2
             end, Finished)
        | None => (fail_with "Invalid response from server" w1, Finished)
        end
    end
  else
    (fail_with "No credential received from Google"
       (do_dispatch loginStart w), Finished).
Proof.
  unfold run_attempt. rewrite run_handleGoogleCallback.
  destruct (truthy_string (credential (response a))); [|reflexivity].
  cbn [resume]. rewrite run_cont_login.
  destruct (exchange a) as [result|e]; [|reflexivity].
  destruct (tokens_of result) as [[access refresh]|]; [|reflexivity].
  cbn [resume]. rewrite run_cont_getMe. reflexivity.
Qed.

Lemma truthy_string_true s : truthy_string s = true <-> s <> "".
Proof. destruct s; cbn; naive_solver. Qed.

Lemma truthy_string_false s : truthy_string s = false <-> s = "".
Proof. destruct s; cbn; naive_solver. Qed.

Lemma has_access_token_tokens_of result :
  has_access_token (Fulfilled result) = true <->
  exists access refresh, tokens_of result = Some (access, refresh).
Proof.
  destruct result as [[sc msg [[[access|] refresh]|]]|]; cbn;
    try (split; [discriminate | intros (? & ? & ?); discriminate]).
  destruct (truthy_string access); split; eauto; try discriminate.
  intros (? & ? & ?); discriminate.
Qed.

(** C1. End-to-end scenario: with credential "cred123", an exchange that
    answers statusCode 200 with accessToken "acc1" and refreshToken
    "ref1", and a profile fetch that answers id 7, email "a@b.com",
    username "alice", confirmed true (no role), the attempt finishes, the
    published auth state is authenticated with that user, role_id
    undefined and no error, and the cookie jar holds access_token "acc1"
    expiring in 1 day and refresh_token "ref1" expiring in 7 days.  The
    last action the callback dispatched is loginSuccess with that user,
    and the API client holds "acc1".  The scenario names no post-login
    observer: [onSuccess] is absent, or it returns when called. *)
Theorem end_to_end_alice props w msg :
  (forall e, onSuccess props <> Throws e) ->
  let a := {| response := {| credential := "cred123" |};
              exchange := Fulfilled (Some
                {| statusCode := 200; message := msg;
                   data := Some {| accessToken := Some "acc1";
                                   refreshToken := Some "ref1" |} |});
              profile := Fulfilled (Some
                {| me_id := 7; me_email := "a@b.com";
                   me_username := "alice"; me_confirmed := true;
                   me_role := None |}) |} in
  let r := run_attempt props a w in
  snd r = Finished /\
  auth (fst r) =
    {| status := authenticated;
       user := Some {| id := 7; email := "a@b.com"; username := "alice";
                       confirmed := true; role_id := None |};
       error := None |} /\
  cookies (fst r) !! "access_token" =
    Some {| value := "acc1"; path := "/"; expires := 1; sameSite := "Lax";
            secure := bool_decide (protocol w = "https:") |} /\
  cookies (fst r) !! "refresh_token" =
    Some {| value := "ref1"; path := "/"; expires := 7; sameSite := "Lax";
            secure := bool_decide (protocol w = "https:") |} /\
  apiToken (fst r) = Some "acc1" /\
  last (List.filter
          (fun o => match o with ODispatch _ => true | _ => false end)
          (log (fst r))) =
    Some (ODispatch (loginSuccess
            {| id := 7; email := "a@b.com"; username := "alice";
               confirmed := true; role_id := None |})).
Proof.
  intros Hobs a r. subst r. rewrite run_attempt_eq. subst a. cbn.
  unfold succeed_with.
  destruct (onSuccess props) as [| |e] eqn:Hon; [| |by destruct (Hobs e)];
    cbn; repeat split; try by simplify_map_eq.
  all: rewrite !List.filter_app; cbn; by rewrite ?app_nil_r, last_snoc.
Qed.

Lemma end_to_end_alice_witness :
  auth (fst (run_attempt props0 attempt_alice w0)) =
    {| status := authenticated;
       user := Some {| id := 7; email := "a@b.com"; username := "alice";
                       confirmed := true; role_id := None |};
       error := None |}.
Proof.
  pose proof (end_to_end_alice props0 w0 None ltac:(discriminate)) as H.
  cbv zeta in H. destruct H as (_ & H & _). exact H.
Defined.

(** C3. An empty credential: the callback runs to its end in its first
    synchronous segment, never suspending on a network call; after the
    initial loginStart it records the failure "No credential received
    from Google" (the spec's "missing credential"), and the exchange
    collaborator is not called: the run's observations are exactly
    loginStart, loginFailure and the error notification. *)
Theorem empty_credential_fails_without_exchange props w :
  let m := "No credential received from Google" in
  let r := run (handleGoogleCallback props {| credential := "" |}) w in
  snd r = Finished /\
  auth (fst r) = {| status := failed; user := None; error := Some m |} /\
  log (fst r) =
    (log w ++ [ODispatch loginStart; ODispatch (loginFailure m);
               OMessageError m 5]) /\
  (forall cred, OGoogleOAuthLogin cred ∉ log w ->
                OGoogleOAuthLogin cred ∉ log (fst r)) /\
  cookies (fst r) = cookies w.
Proof.
  intros m r. subst r. rewrite run_handleGoogleCallback. cbn.
  repeat split.
  - by rewrite <- !app_assoc.
  - intros cred Hw H. repeat (apply elem_of_app in H as [H|H]);
      [done | absurd_elem H ..].
Qed.

(** The same run driven as a whole attempt: the outcomes prepared for
    the two collaborators are never consumed. *)
Example empty_credential_attempt :
  run_attempt props0 attempt_empty_credential w0 =
  run (handleGoogleCallback props0 {| credential := "" |}) w0.
Proof. reflexivity. Qed.

(** C4. The exchange call is rejected, or resolves with no response, no
    data, or a missing or empty accessToken: the attempt finishes in the
    failed state, with the rejection's message when the call was rejected
    and with "Invalid response from server" (the spec's "invalid server
    response") otherwise, and nothing is persisted: the run's observations
    contain no cookie write, and the cookie jar and the API token are
    those from before the run. *)
Theorem exchange_failure_persists_nothing props a w :
  truthy_string (credential (response a)) = true ->
  has_access_token (exchange a) = false ->
  let m := match exchange a with
           | Rejected e => getErrorMessage e
           | Fulfilled _ => "Invalid response from server"
           end in
  let r := run_attempt props a w in
  snd r = Finished /\
  auth (fst r) = {| status := failed; user := None; error := Some m |} /\
  log (fst r) =
    (log w ++ [ODispatch loginStart;
               OGoogleOAuthLogin (credential (response a));
               ODispatch (loginFailure m); OMessageError m 5]) /\
  cookies (fst r) = cookies w /\
  apiToken (fst r) = apiToken w.
Proof.
  intros Hcred Hno m r. subst r m. rewrite run_attempt_eq. cbn zeta.
  rewrite Hcred.
  destruct (exchange a) as [result|e].
  - destruct (tokens_of result) as [[access refresh]|] eqn:Htok.
    + assert (has_access_token (Fulfilled result) = true) as Hyes
        by (apply has_access_token_tokens_of; eauto).
      congruence.
    + cbn. repeat split. by rewrite <- !app_assoc.
  - cbn. repeat split. by rewrite <- !app_assoc.
Qed.

Lemma exchange_failure_persists_nothing_witness :
  auth (fst (run_attempt props0 attempt_no_access w0)) =
    {| status := failed; user := None;
       error := Some "Invalid response from server" |} /\
  cookies (fst (run_attempt props0 attempt_no_access w0)) = cookies w0.
Proof.
  pose proof (exchange_failure_persists_nothing props0 attempt_no_access w0
                eq_refl eq_refl) as H.
  cbv zeta in H. destruct H as (_ & Hauth & _ & Hck & _).
  split; [exact Hauth | exact Hck].
Defined.

(** C2, as the code has it. After a successful exchange the tokens are
    persisted; when the profile fetch then fails the attempt finishes in
    the failed state, and the failure path leaves the cookie jar and the
    API token exactly as the persisting step left them: access_token
    holds the access token, refresh_token the refresh token when one was
    returned.  The recorded reason is "Failed to fetch user details" when
    the fetch resolved with no profile, and the rejection's own message
    when the fetch call was rejected; all the failure path does is
    dispatch loginFailure with that reason and show it once. *)
Theorem profile_failure_keeps_tokens props a w sc msg access refresh :
  truthy_string (credential (response a)) = true ->
  exchange a = Fulfilled (Some
    {| statusCode := sc; message := msg;
       data := Some {| accessToken := Some access;
                       refreshToken := refresh |} |}) ->
  truthy_string access = true ->
  (profile a = Fulfilled None \/ exists e, profile a = Rejected e) ->
  let m := match profile a with
           | Rejected e => getErrorMessage e
           | Fulfilled _ => "Failed to fetch user details"
           end in
  let at_start := run (handleGoogleCallback props (response a)) w in
  let at_getMe := resume a (snd at_start) (fst at_start) in
  let r := run_attempt props a w in
  r = resume a (snd at_getMe) (fst at_getMe) /\
  snd r = Finished /\
  auth (fst r) = {| status := failed; user := None; error := Some m |} /\
  log (fst r) =
    log (fst at_getMe) ++ [ODispatch (loginFailure m); OMessageError m 5] /\
  cookies (fst r) = cookies (fst at_getMe) /\
  apiToken (fst r) = apiToken (fst at_getMe) /\
  cookies (fst r) !! "access_token" =
    Some {| value := access; path := "/"; expires := 1; sameSite := "Lax";
            secure := bool_decide (protocol w = "https:") |} /\
  cookies (fst r) !! "refresh_token" =
    match refresh with
    | Some rt =>
        if truthy_string rt then
          Some {| value := rt; path := "/"; expires := 7; sameSite := "Lax";
                  secure := bool_decide (protocol w = "https:") |}
        else cookies w !! "refresh_token"
    | None => cookies w !! "refresh_token"
    end /\
  apiToken (fst r) = Some access.
Proof.
  intros Hcred Hex Hacc Hfail m at_start at_getMe r.
  assert (r = resume a (snd at_getMe) (fst at_getMe)) as Hr.
  { subst r at_getMe at_start. unfold run_attempt.
    destruct (run (handleGoogleCallback props (response a)) w) as [w1 s1].
    cbn [fst snd]. by destruct (resume a s1 w1). }
  split; [exact Hr|].
  subst at_getMe at_start. rewrite run_handleGoogleCallback, Hcred.
  cbn [fst snd resume]. rewrite run_cont_login, Hex.
  subst r. rewrite run_attempt_eq. cbn zeta. rewrite Hcred, Hex.
  unfold tokens_of. rewrite Hacc. cbn [fst snd].
  assert (forall m' w',
            auth (fail_with m' w') =
              {| status := failed; user := None; error := Some m' |} /\
            log (fail_with m' w') =
              log w' ++ [ODispatch (loginFailure m'); OMessageError m' 5] /\
            cookies (fail_with m' w') = cookies w' /\
            apiToken (fail_with m' w') = apiToken w') as Hfw.
  { intros m' w'. repeat split. cbn. by rewrite <- app_assoc. }
  subst m.
  destruct Hfail as [->|[e ->]];
    match goal with
    | |- context [fail_with ?m' ?w'] =>
        destruct (Hfw m' w') as (-> & -> & -> & ->)
    end.
  all: repeat split.
  all: destruct refresh as [rt|]; cbn; [destruct (truthy_string rt); cbn|];
    by simplify_map_eq.
Qed.

Lemma profile_failure_keeps_tokens_witness :
  auth (fst (run_attempt props0 attempt_profile_empty w0)) =
    {| status := failed; user := None;
       error := Some "Failed to fetch user details" |} /\
  cookies (fst (run_attempt props0 attempt_profile_empty w0))
    !! "access_token" =
    Some {| value := "acc1"; path := "/"; expires := 1; sameSite := "Lax";
            secure := true |}.
Proof.
  pose proof (profile_failure_keeps_tokens props0 attempt_profile_empty w0
                200 None "acc1" (Some "ref1") eq_refl eq_refl eq_refl
                (or_introl eq_refl)) as H.
  cbv zeta in H. destruct H as (_ & _ & Hauth & _ & _ & _ & Hacc & _).
  split; [exact Hauth | exact Hacc].
Defined.

(** C2, counterexample to the spec's statement: the exchange succeeds, the
    tokens are persisted and the profile request is rejected with
    "Network Error"; the attempt fails, but the recorded reason is the
    rejection's message, not "Failed to fetch user details". *)
Lemma profile_rejected_reason_differs :
  let r := run_attempt props0 attempt_profile_rejected w0 in
  has_access_token (exchange attempt_profile_rejected) = true /\
  profile attempt_profile_rejected = Rejected (ErrorObj "Network Error") /\
  status (auth (fst r)) = failed /\
  error (auth (fst r)) = Some "Network Error" /\
  error (auth (fst r)) <> Some "Failed to fetch user details" /\
  error (auth (fst r)) <> Some "failed to fetch user details".
Proof. cbn. repeat split; discriminate. Qed.

(** A run whose exchange returned a usable access token, in full. *)
Lemma run_attempt_exchanged props a w sc msg access refresh :
  truthy_string (credential (response a)) = true ->
  exchange a = Fulfilled (Some
    {| statusCode := sc; message := msg;
       data := Some {| accessToken := Some access;
                       refreshToken := refresh |} |}) ->
  truthy_string access = true ->
  let kept := if truthy_opt refresh then refresh else None in
  let r := run_attempt props a w in
  snd r = Finished /\
  auth (fst r) = profile_state props (profile a) /\
  cookies (fst r) =
    cookies (persist_tokens access kept w) /\
  log (fst r) =
    (log w ++
     [ODispatch loginStart; OGoogleOAuthLogin (credential (response a));
      OCookieSet "access_token" (token_cookie access 1 w)] ++
     match kept with
     | Some rt => [OCookieSet "refresh_token" (token_cookie rt 7 w)]
     | None => []
     end ++
     [OSetToken access; OGetMe] ++ profile_obs props (profile a)).
Proof.
  intros Hcred Hex Hacc kept r. subst r.
  rewrite run_attempt_eq. cbn zeta. rewrite Hcred, Hex.
  unfold tokens_of. rewrite Hacc. fold kept.
  destruct kept as [rt|], (profile a) as [[ud|]|e]; cbn;
    unfold succeed_with; try destruct (onSuccess props); cbn;
    repeat split; by rewrite <- ?app_assoc.
Qed.

Lemma emitted_app w w' l : log w' = (log w ++ l) -> emitted w w' = l.
Proof. intros H. unfold emitted. rewrite H. apply drop_app_length. Qed.

Lemma cookie_writes_profile_obs props p :
  cookie_writes (profile_obs props p) = [].
Proof. destruct p as [[ud|]|e]; cbn; by try destruct (onSuccess props). Qed.

Lemma getMe_not_in_profile_obs props p : OGetMe ∉ profile_obs props p.
Proof.
  destruct p as [[ud|]|e]; cbn; try destruct (onSuccess props); cbn;
    intros H; absurd_elem H.
Qed.

(** C9. After a successful exchange the cookies are written by the fixed
    policy: access_token with 1-day expiry and, when it is written,
    refresh_token with 7-day expiry, both with path "/", SameSite "Lax"
    and the secure flag set exactly when the page's protocol is "https:".
    Every cookie write comes before the call of the profile fetch: the
    run's observations are loginStart, the exchange call, the cookie
    writes, setToken, the getMe call, and then a rest that contains no
    cookie write and no further getMe call. *)
Theorem token_policy_and_order props a w sc msg access refresh :
  truthy_string (credential (response a)) = true ->
  exchange a = Fulfilled (Some
    {| statusCode := sc; message := msg;
       data := Some {| accessToken := Some access;
                       refreshToken := refresh |} |}) ->
  truthy_string access = true ->
  let r := run_attempt props a w in
  exists (on_https : bool) (refresh_writes rest : list Obs),
    (on_https = true <-> protocol w = "https:") /\
    emitted w (fst r) =
      ([ODispatch loginStart; OGoogleOAuthLogin (credential (response a));
        OCookieSet "access_token"
          {| value := access; path := "/"; expires := 1;
             sameSite := "Lax"; secure := on_https |}] ++
       refresh_writes ++ [OSetToken access; OGetMe] ++ rest) /\
    (refresh_writes = [] \/
     exists rt, refresh_writes =
       [OCookieSet "refresh_token"
          {| value := rt; path := "/"; expires := 7;
             sameSite := "Lax"; secure := on_https |}]) /\
    cookie_writes rest = [] /\
    (OGetMe ∉ rest) /\
    cookies (fst r) !! "access_token" =
      Some {| value := access; path := "/"; expires := 1;
              sameSite := "Lax"; secure := on_https |}.
Proof.
  intros Hcred Hex Hacc r.
  destruct (run_attempt_exchanged props a w sc msg access refresh
              Hcred Hex Hacc) as (_ & _ & Hck & Hlog).
  cbv zeta in Hck, Hlog. fold r in Hck, Hlog.
  exists (bool_decide (protocol w = "https:")).
  exists (match (if truthy_opt refresh then refresh else None) with
          | Some rt => [OCookieSet "refresh_token" (token_cookie rt 7 w)]
          | None => []
          end), (profile_obs props (profile a)).
  split; [apply bool_decide_eq_true|].
  split; [by apply emitted_app|].
  split; [destruct (if truthy_opt refresh then refresh else None); eauto|].
  split; [apply cookie_writes_profile_obs|].
  split; [apply getMe_not_in_profile_obs|].
  rewrite Hck.
  destruct (if truthy_opt refresh then refresh else None); cbn;
    by simplify_map_eq.
Qed.

Lemma token_policy_and_order_witness :
  cookies (fst (run_attempt props0 attempt_alice w0)) !! "access_token" =
    Some {| value := "acc1"; path := "/"; expires := 1; sameSite := "Lax";
            secure := true |}.
Proof.
  destruct (token_policy_and_order props0 attempt_alice w0 200 None "acc1"
              (Some "ref1") eq_refl eq_refl eq_refl)
    as (on_https & ws & rest & Hs & _ & _ & _ & _ & Hck).
  rewrite Hck. destruct on_https; [reflexivity|].
  destruct Hs as [_ Hs]. discriminate (Hs eq_refl).
Defined.

(** C10. After a successful exchange the access-token cookie is always
    written, and the refresh-token cookie is written if and only if the
    response carries a non-empty refreshToken; when it does not, the
    refresh_token entry of the jar is left as it was.  Either way the
    attempt goes on to call the profile fetch, and when that returns a
    profile the attempt ends authenticated (unless an [onSuccess]
    supplied by the caller throws). *)
Theorem refresh_cookie_iff_returned props a w sc msg access refresh :
  truthy_string (credential (response a)) = true ->
  exchange a = Fulfilled (Some
    {| statusCode := sc; message := msg;
       data := Some {| accessToken := Some access;
                       refreshToken := refresh |} |}) ->
  truthy_string access = true ->
  let r := run_attempt props a w in
  let written := cookie_writes (emitted w (fst r)) in
  (exists c, OCookieSet "access_token" c ∈ written /\ value c = access) /\
  ((exists c, OCookieSet "refresh_token" c ∈ written) <->
   truthy_opt refresh = true) /\
  (truthy_opt refresh = true ->
   exists c, cookies (fst r) !! "refresh_token" = Some c /\
             Some (value c) = refresh) /\
  (truthy_opt refresh = false ->
   cookies (fst r) !! "refresh_token" = cookies w !! "refresh_token") /\
  OGetMe ∈ emitted w (fst r) /\
  snd r = Finished /\
  (forall ud, profile a = Fulfilled (Some ud) ->
     (forall e, onSuccess props <> Throws e) ->
     auth (fst r) =
       {| status := authenticated;
          user := Some {| id := me_id ud; email := me_email ud;
                          username := me_username ud;
                          confirmed := me_confirmed ud;
                          role_id := role_or_undefined (me_role ud) |};
          error := None |}).
Proof.
  intros Hcred Hex Hacc r written.
  destruct (run_attempt_exchanged props a w sc msg access refresh
              Hcred Hex Hacc) as (Hfin & Hauth & Hck & Hlog).
  cbv zeta in Hfin, Hauth, Hck, Hlog. fold r in Hfin, Hauth, Hck, Hlog.
  apply emitted_app in Hlog.
  assert (written =
          OCookieSet "access_token" (token_cookie access 1 w) ::
          match (if truthy_opt refresh then refresh else None) with
          | Some rt => [OCookieSet "refresh_token" (token_cookie rt 7 w)]
          | None => []
          end) as Hw.
  { subst written. rewrite Hlog. unfold cookie_writes.
    rewrite !List.filter_app.
    fold (cookie_writes (profile_obs props (profile a))).
    rewrite cookie_writes_profile_obs.
    destruct (if truthy_opt refresh then refresh else None);
      reflexivity. }
  repeat split.
  - exists (token_cookie access 1 w). rewrite Hw. split; [left|done].
  - intros [c Hc]. rewrite Hw in Hc.
    destruct (truthy_opt refresh); [done|]. absurd_elem Hc.
  - intros Ht. rewrite Hw, Ht. destruct refresh as [rt|]; [|done].
    exists (token_cookie rt 7 w). right. left.
  - intros Ht. rewrite Hck, Ht. destruct refresh as [rt|]; [|done].
    exists (token_cookie rt 7 w). cbn. by simplify_map_eq.
  - intros Ht. rewrite Hck, Ht. cbn. by simplify_map_eq.
  - rewrite Hlog. rewrite !elem_of_app. right. right. left.
    right. left.
  - exact Hfin.
  - intros ud Hud Hobs. rewrite Hauth, Hud. cbn.
    destruct (onSuccess props) as [| |e]; [done|done|by destruct (Hobs e)].
Qed.

Lemma refresh_cookie_iff_returned_witness :
  cookies (fst (run_attempt props0 attempt_no_refresh w0))
    !! "refresh_token" = None /\
  status (auth (fst (run_attempt props0 attempt_no_refresh w0))) =
    authenticated.
Proof.
  destruct (refresh_cookie_iff_returned props0 attempt_no_refresh w0 200
              None "acc1" None eq_refl eq_refl eq_refl)
    as (_ & _ & _ & Hnone & _ & _ & Hauth).
  split.
  - rewrite (Hnone eq_refl). reflexivity.
  - rewrite (Hauth alice eq_refl ltac:(discriminate)). reflexivity.
Defined.

(** The observations of any run extend the log it started from. *)
Lemma run_attempt_emitted props a w :
  let cred := credential (response a) in
  emitted w (fst (run_attempt props a w)) =
  if truthy_string cred then
    [ODispatch loginStart; OGoogleOAuthLogin cred] ++
    match exchange a with
    | Rejected e =>
        [ODispatch (loginFailure (getErrorMessage e));
         OMessageError (getErrorMessage e) 5]
    | Fulfilled result =>
        match tokens_of result with
        | Some (access, refresh) =>
            [OCookieSet "access_token" (token_cookie access 1 w)] ++
            match refresh with
            | Some rt => [OCookieSet "refresh_token" (token_cookie rt 7 w)]
            | None => []
            end ++
            [OSetToken access; OGetMe] ++ profile_obs props (profile a)
        | None =>
            [ODispatch (loginFailure "Invalid response from server");
             OMessageError "Invalid response from server" 5]
        end
    end
  else
    [ODispatch loginStart;
     ODispatch (loginFailure "No credential received from Google");
     OMessageError "No credential received from Google" 5].
Proof.
  cbv zeta. apply emitted_app. rewrite run_attempt_eq. cbv zeta.
  destruct (truthy_string (credential (response a)));
    [|cbn; by rewrite <- !app_assoc].
  destruct (exchange a) as [result|e]; [|cbn; by rewrite <- !app_assoc].
  destruct (tokens_of result) as [[access [rt|]]|];
    [| |cbn; by rewrite <- !app_assoc];
    destruct (profile a) as [[ud|]|e]; cbn; unfold succeed_with;
    try destruct (onSuccess props); cbn; by rewrite <- !app_assoc.
Qed.

Lemma error_messages_profile_obs props p :
  error_messages (profile_obs props p) =
  match p with
  | Fulfilled (Some _) =>
      match onSuccess props with
      | Throws e => [OMessageError (getErrorMessage e) 5]
      | _ => []
      end
  | Fulfilled None => [OMessageError "Failed to fetch user details" 5]
  | Rejected e => [OMessageError (getErrorMessage e) 5]
  end.
Proof. destruct p as [[ud|]|e]; cbn; by try destruct (onSuccess props). Qed.

(** C6, as the code has it. Every login attempt finishes, and it either
    ends authenticated, which needs a non-empty credential, a usable
    access token and a fetched profile, or it ends in the failed state
    with a message that is also shown in exactly one error notification:
    no failure of the credential callback is swallowed.  A failure of the
    script loader is only notified: the bootstrap effect shows one error
    notification and leaves the auth state as it was. *)
Theorem failures_recorded_and_notified :
  (forall props a w,
     let r := run_attempt props a w in
     snd r = Finished /\
     ((exists ud,
         truthy_string (credential (response a)) = true /\
         has_access_token (exchange a) = true /\
         profile a = Fulfilled (Some ud) /\
         status (auth (fst r)) = authenticated /\
         error_messages (emitted w (fst r)) = []) \/
      (exists m,
         auth (fst r) =
           {| status := failed; user := None; error := Some m |} /\
         error_messages (emitted w (fst r)) = [OMessageError m 5]))) /\
  (forall props client_id e w,
     validateGoogleClientId client_id = true ->
     let r := run_loadScriptEffect props client_id true (Rejected e) w in
     snd r = Finished /\
     auth (fst r) = auth w /\
     emitted w (fst r) =
       [OLoadScript;
        OMessageError (js_or (t props "auth.googleLoadFailed")
                         "Failed to load Google authentication") 5]).
Proof.
  split.
  - intros props a w r. subst r.
    rewrite run_attempt_emitted. rewrite run_attempt_eq. cbv zeta.
    destruct (truthy_string (credential (response a)));
      [|split; [done|right; eexists; split; reflexivity]].
    destruct (exchange a) as [result|e];
      [|split; [done|right; eexists; split; reflexivity]].
    destruct (tokens_of result) as [[access refresh]|] eqn:Htok;
      [|split; [done|right; eexists; split; reflexivity]].
    split; [done|].
    assert (has_access_token (Fulfilled result) = true) as Hyes
      by (apply has_access_token_tokens_of; eauto).
    unfold error_messages. rewrite !List.filter_app.
    fold (error_messages (profile_obs props (profile a))).
    rewrite error_messages_profile_obs.
    destruct (profile a) as [[ud|]|e].
    + cbn [fst]. unfold succeed_with.
      destruct (onSuccess props) as [| |e].
      * left. exists ud. repeat split; try done. by destruct refresh.
      * left. exists ud. repeat split; try done. by destruct refresh.
      * right. eexists. split; [reflexivity|]. by destruct refresh.
    + right. eexists. split; [reflexivity|]. by destruct refresh.
    + right. eexists. split; [reflexivity|]. by destruct refresh.
  - intros props client_id e w Hvalid r. subst r.
    unfold run_loadScriptEffect, loadScriptEffect. rewrite Hvalid. cbn.
    repeat split. apply emitted_app. cbn. by rewrite <- !app_assoc.
Qed.

Lemma failures_recorded_and_notified_witness :
  auth (fst (run_loadScriptEffect props0 "client-id" true
               (Rejected (ErrorObj "Failed to load Google OAuth script"))
               w0)) = auth w0.
Proof.
  destruct failures_recorded_and_notified as [_ H].
  destruct (H props0 "client-id"
              (ErrorObj "Failed to load Google OAuth script") w0 eq_refl)
    as (_ & Hauth & _).
  exact Hauth.
Defined.

(** C6, counterexample to the spec's statement: the modal is open, the
    client id is configured and the script loader rejects.  The user is
    notified, but the failure is not recorded: the auth state is still
    idle with no error. *)
Lemma script_load_failure_not_recorded :
  let r := run_loadScriptEffect props0 "client-id" true
             (Rejected (ErrorObj "Failed to load Google OAuth script")) w0 in
  snd r = Finished /\
  status (auth (fst r)) = idle /\
  status (auth (fst r)) <> failed /\
  error (auth (fst r)) = None /\
  log (fst r) = [OLoadScript; OMessageError "auth.googleLoadFailed" 5].
Proof. cbn. repeat split. discriminate. Qed.

(** ** Overlapping attempts *)

Lemma auth_fail_with m w :
  auth (fail_with m w) = {| status := failed; user := None; error := Some m |}.
Proof. reflexivity. Qed.

Lemma auth_succeed_with props ud w :
  auth (succeed_with props ud w) = profile_state props (Fulfilled (Some ud)).
Proof. unfold succeed_with. cbn. by destruct (onSuccess props). Qed.

(** What one more turn of a well-formed attempt does. *)
Lemma resume_ok props a st w :
  task_ok props a st ->
  task_ok props a (snd (resume a st w)).
Proof.
  destruct st as [| |cred k|k|k]; cbn; try done.
  - intros [Hcred ->]. rewrite run_cont_login.
    destruct (exchange a) as [result|e] eqn:Hex; [|done].
    destruct (tokens_of result) as [[access refresh]|] eqn:Htok; [|done].
    cbn. eauto 10.
  - intros (Hcred & _ & ->). by rewrite run_cont_getMe.
Qed.

Lemma start_ok props a w :
  task_ok props a (snd (run (handleGoogleCallback props (response a)) w)).
Proof.
  rewrite run_handleGoogleCallback.
  by destruct (truthy_string (credential (response a))) eqn:Hcred.
Qed.

Lemma turn_ok props atts s j :
  sys_ok props atts s -> sys_ok props atts (turn props atts s j).
Proof.
  intros Hs. unfold turn.
  destruct (atts !! j) as [aj|] eqn:Haj; [|done].
  destruct (tasks s !! j) as [stj|] eqn:Hj.
  - pose proof (resume_ok props aj stj (world s) (Hs _ _ _ Haj Hj)) as Hok.
    destruct (resume aj stj (world s)) as [w' st'].
    intros i a st Ha Hi. cbn in Hi.
    destruct (decide (i = j)) as [->|Hne].
    + rewrite lookup_insert_eq in Hi. by simplify_eq.
    + rewrite lookup_insert_ne in Hi by done. eauto.
  - pose proof (start_ok props aj (world s)) as Hok.
    destruct (run (handleGoogleCallback props (response aj)) (world s))
      as [w' st'].
    intros i a st Ha Hi. cbn in Hi.
    destruct (decide (i = j)) as [->|Hne].
    + rewrite lookup_insert_eq in Hi. by simplify_eq.
    + rewrite lookup_insert_ne in Hi by done. eauto.
Qed.

Lemma exec_ok props atts sched s :
  sys_ok props atts s -> sys_ok props atts (exec props atts sched s).
Proof.
  revert s. induction sched as [|j sched IH]; intros s Hs; [done|].
  cbn. apply IH. by apply turn_ok.
Qed.

Lemma boot_ok props atts w : sys_ok props atts (boot w).
Proof. intros i a st _ Hi. cbn in Hi. by rewrite lookup_empty in Hi. Qed.

(** The result an attempt publishes does not depend on the state it
    starts from. *)
Lemma run_attempt_auth props a w :
  auth (fst (run_attempt props a w)) =
  if truthy_string (credential (response a)) then
    match exchange a with
    | Rejected e =>
        {| status := failed; user := None;
           error := Some (getErrorMessage e) |}
    | Fulfilled result =>
        match tokens_of result with
        | Some _ => profile_state props (profile a)
        | None => {| status := failed; user := None;
                     error := Some "Invalid response from server" |}
        end
    end
  else {| status := failed; user := None;
          error := Some "No credential received from Google" |}.
Proof.
  rewrite run_attempt_eq. cbv zeta.
  destruct (truthy_string (credential (response a))); [|done].
  destruct (exchange a) as [result|e]; [|done].
  destruct (tokens_of result) as [[access refresh]|]; [|done].
  destruct (profile a) as [[ud|]|e]; cbn [fst];
    by rewrite ?auth_fail_with, ?auth_succeed_with.
Qed.

(** C5, as the code has it. The callback carries no sequence number and
    never checks whether a later attempt has started: whenever a turn of
    the event loop completes an attempt, the published auth state is
    that attempt's own result, whatever the other attempts, started
    earlier or later, have published before.  So after any interleaving
    the auth state reflects the attempt that completed last. *)
Theorem last_completed_wins props atts sched i a w w' :
  atts !! i = Some a ->
  let s := exec props atts sched (boot w) in
  let s' := exec props atts (sched ++ [i]) (boot w) in
  tasks s !! i <> Some Finished ->
  tasks s' !! i = Some Finished ->
  auth (world s') = auth (fst (run_attempt props a w')).
Proof.
  intros Ha s s' Hbefore Hafter.
  assert (s' = turn props atts s i) as Hs'
    by (subst s s'; unfold exec; apply foldl_snoc).
  pose proof (exec_ok props atts sched (boot w) (boot_ok props atts w))
    as Hok. fold s in Hok.
  rewrite Hs' in Hafter |- *. clear Hs' s'. revert Hafter.
  rewrite run_attempt_auth. unfold turn. rewrite Ha.
  destruct (tasks s !! i) as [st|] eqn:Hi.
  - specialize (Hok i a st Ha Hi).
    destruct st as [| |cred k|k|k]; cbn in Hok; try done.
    + destruct Hok as [Hcred ->]. rewrite Hcred. cbn [resume].
      rewrite run_cont_login.
      destruct (exchange a) as [result|e]; [|done].
      destruct (tokens_of result) as [[access refresh]|]; [|done].
      cbn. rewrite lookup_insert_eq. discriminate.
    + destruct Hok as (Hcred & (result & access & refresh & Hex & Htok) & ->).
      rewrite Hcred, Hex, Htok. cbn [resume]. rewrite run_cont_getMe.
      intros _. cbn [world].
      destruct (profile a) as [[ud|]|e];
        by rewrite ?auth_fail_with, ?auth_succeed_with.
  - rewrite run_handleGoogleCallback.
    destruct (truthy_string (credential (response a))); [|done].
    cbn. rewrite lookup_insert_eq. discriminate.
Qed.

Lemma last_completed_wins_witness :
  auth (world (exec props0 two_attempts overtaking (boot w0))) =
  {| status := failed; user := None; error := Some "Network Error" |}.
Proof.
  pose proof (last_completed_wins props0 two_attempts [0; 1; 1; 1]%nat
                0%nat attempt_exchange_rejected w0 w0 eq_refl) as H.
  cbv zeta in H. apply H.
  - vm_compute. discriminate.
  - vm_compute. reflexivity.
Defined.

(** C5, counterexample to the spec's statement: two overlapping attempts;
    the one started last finishes first and is authenticated, then the
    exchange of the one started first is rejected.  Both have finished,
    the attempt started last is attempt 1, and the published auth state
    is the failure of attempt 0, not the result of attempt 1. *)
Lemma latest_started_loses :
  ~ latest_started_wins props0 two_attempts overtaking w0.
Proof.
  unfold latest_started_wins. intros H.
  specialize (H ltac:(intros i Hi; repeat (apply elem_of_cons in Hi as [->|Hi];
                        [vm_compute; reflexivity|]);
                      by apply elem_of_nil in Hi)
                1%nat attempt_alice eq_refl eq_refl).
  vm_compute in H. discriminate H.
Qed.

(** ** The script loader *)

Lemma settle_other p q st pg :
  q <> p -> stranded p pg -> stranded p (settle q st pg).
Proof.
  intros Hne (Hp & Ht & Hs). unfold settle.
  destruct (promises pg !! q) as [[| |]|]; try done.
  split; [|done]. cbn. by rewrite list_lookup_insert_ne.
Qed.

Lemma run_handler_other p h pg :
  handler_target h <> p -> stranded p pg -> stranded p (run_handler pg h).
Proof.
  destruct h as [q|q msg|q ms]; cbn; intros Hne Hst.
  - by apply settle_other.
  - by apply settle_other.
  - destruct Hst as (Hp & Ht & Hs). split; [done|]. split; [|done].
    cbn. apply Forall_app_2; [done|]. by apply Forall_singleton.
Qed.

Lemma run_handlers_other p hs pg :
  Forall (fun h => handler_target h <> p) hs ->
  stranded p pg -> stranded p (foldl run_handler pg hs).
Proof.
  revert pg. induction hs as [|h hs IH]; intros pg Hhs Hst; [done|].
  apply Forall_cons in Hhs as [Hh Hhs]. cbn.
  apply IH; [done|]. by apply run_handler_other.
Qed.

Lemma stranded_lt p pg : stranded p pg -> (p < length (promises pg))%nat.
Proof. intros (Hp & _). by apply lookup_lt_Some in Hp. Qed.

(** A later call of the loader cannot rescue a stranded promise. *)
Lemma loader_keeps_stranded p pg :
  stranded p pg -> stranded p (fst (loadGoogleOAuthScript pg)).
Proof.
  intros Hst. pose proof (stranded_lt p pg Hst) as Hlt.
  destruct Hst as (Hp & Ht & Hs).
  assert (stranded p
            {| google_accounts := google_accounts pg; scripts := scripts pg;
               timers := timers pg; promises := promises pg ++ [Pending] |})
    as Hst'.
  { split; [|done]. cbn. by rewrite lookup_app_l. }
  unfold loadGoogleOAuthScript. cbn [google_accounts].
  destruct (google_accounts pg).
  { cbn [fst]. apply settle_other; [lia|done]. }
  unfold querySelector. cbn [scripts].
  destruct (list_find _ (scripts pg)) as [[i el]|] eqn:Hfind; cbn [fst].
  - apply list_find_Some in Hfind as (Hi & _ & _).
    destruct Hst' as (Hp' & Ht' & Hs').
    split; [done|]. split; [done|]. cbn.
    apply Forall_insert; [done|]. cbn. intros Hph.
    pose proof (Forall_lookup_1 _ _ _ _ Hs Hi Hph) as Hel.
    apply Forall_app in Hel as [Hl He].
    repeat apply Forall_app_2; try done;
      apply Forall_singleton; cbn; lia.
  - destruct Hst' as (Hp' & Ht' & Hs').
    split; [done|]. split; [done|]. cbn.
    apply Forall_app_2; [done|]. apply Forall_singleton. cbn. intros _.
    repeat constructor; cbn; lia.
Qed.

(** No page event settles a stranded promise. *)
Lemma page_step_keeps_stranded p pg ev :
  stranded p pg -> stranded p (page_step pg ev).
Proof.
  intros Hst. destruct ev as [|i api|i|j|]; cbn.
  - by apply loader_keeps_stranded.
  - destruct (scripts pg !! i) as [el|] eqn:Hi; [|done].
    destruct (phase el) eqn:Hph; try done.
    destruct Hst as (Hp & Ht & Hs).
    pose proof (Forall_lookup_1 _ _ _ _ Hs Hi Hph) as Hel.
    apply Forall_app in Hel as [Hl He].
    apply run_handlers_other; [done|].
    split; [done|]. split; [done|]. cbn.
    apply Forall_insert; [done|]. cbn. discriminate.
  - destruct (scripts pg !! i) as [el|] eqn:Hi; [|done].
    destruct (phase el) eqn:Hph; try done.
    destruct Hst as (Hp & Ht & Hs).
    pose proof (Forall_lookup_1 _ _ _ _ Hs Hi Hph) as Hel.
    apply Forall_app in Hel as [Hl He].
    apply run_handlers_other; [done|].
    split; [done|]. split; [done|]. cbn.
    apply Forall_insert; [done|]. cbn. discriminate.
  - destruct (timers pg !! j) as [tm|] eqn:Hj; [|done].
    destruct Hst as (Hp & Ht & Hs).
    pose proof (Forall_lookup_1 _ _ _ _ Ht Hj) as Htm.
    assert (stranded p
              {| google_accounts := google_accounts pg;
                 scripts := scripts pg; timers := delete j (timers pg);
                 promises := promises pg |}) as Hst'.
    { split; [done|]. split; [|done]. cbn. by apply Forall_delete. }
    unfold timer_callback. cbn [google_accounts].
    destruct (google_accounts pg); by apply settle_other.
  - by destruct Hst as (Hp & Ht & Hs).
Qed.

Lemma page_run_keeps_stranded p evs pg :
  stranded p pg -> stranded p (page_run evs pg).
Proof.
  revert pg. induction evs as [|ev evs IH]; intros pg Hst; [done|].
  cbn. apply IH. by apply page_step_keeps_stranded.
Qed.

(** C7. The code at the failing input: on a fresh page one call issues
    the fetch and a second call attaches to it; the fetch fails.  Both
    waiters are rejected with "Failed to load Google OAuth script", as
    the spec says.  But nothing is reset: the failed script element
    stays in the document, so a later call finds it, appends no new
    script element (no fresh fetch) and only registers listeners on the
    element whose fetch has already ended.  Whatever happens on the page
    afterwards, that call's promise stays pending: the retry never
    settles. *)
Theorem retry_after_failed_fetch_never_settles :
  let first := loadGoogleOAuthScript fresh_page in
  let second := loadGoogleOAuthScript (fst first) in
  let failed_page := page_step (fst second) (ScriptFails 0) in
  let retry := loadGoogleOAuthScript failed_page in
  promises failed_page !! snd first =
    Some (RejectedWith (ErrorObj "Failed to load Google OAuth script")) /\
  promises failed_page !! snd second =
    Some (RejectedWith (ErrorObj "Failed to load Google OAuth script")) /\
  (exists el, querySelector failed_page = Some (0%nat, el) /\
              phase el = Errored) /\
  length (scripts (fst retry)) = length (scripts failed_page) /\
  (forall el, el ∈ scripts (fst retry) -> phase el <> InFlight) /\
  forall evs : list PageEvent,
    promises (page_run evs (fst retry)) !! snd retry = Some Pending.
Proof.
  cbv zeta. split; [reflexivity|]. split; [reflexivity|].
  split; [eexists; split; reflexivity|]. split; [reflexivity|].
  split.
  - intros el Hel. apply list_elem_of_singleton in Hel as ->. discriminate.
  - intros evs. eapply page_run_keeps_stranded.
    split; [reflexivity|]. split; [constructor|].
    apply Forall_singleton. discriminate.
Qed.

(** C8, as the code has it.  When [window.google.accounts] is already
    present, a call of the loader resolves its promise at once, appends
    no script element (no fetch), arms no timer and leaves every other
    promise alone.  When it is absent and no matching script element
    exists, the call appends the script element and so issues the fetch;
    once that script has loaded, the promise of that call
    stays pending for the 100 ms settle delay, and if the API is still
    not there when the delay ends, the promise is rejected with "Google
    OAuth API not available after script load". *)
Theorem loader_present_resolves_unavailable_rejects :
  (forall pg,
     google_accounts pg = true ->
     let r := loadGoogleOAuthScript pg in
     promises (fst r) !! snd r = Some Resolved /\
     scripts (fst r) = scripts pg /\
     timers (fst r) = timers pg /\
     google_accounts (fst r) = google_accounts pg /\
     promises (fst r) = promises pg ++ [Resolved]) /\
  (forall pg,
     google_accounts pg = false ->
     querySelector pg = None ->
     let r := loadGoogleOAuthScript pg in
     let p := snd r in
     let i := length (scripts pg) in
     let j := length (timers pg) in
     scripts (fst r) =
       scripts pg ++
       [{| src := GSI_CLIENT_SRC; phase := InFlight;
           on_load := [CheckAfterDelay p 100];
           on_error := [RejectNow p "Failed to load Google OAuth script"] |}]
     /\
     let loaded := page_step (fst r) (ScriptLoads i false) in
     promises loaded !! p = Some Pending /\
     timers loaded !! j = Some {| delay := 100; target := p |} /\
     google_accounts loaded = false /\
     promises (page_step loaded (TimerFires j)) !! p =
       Some (RejectedWith
               (ErrorObj "Google OAuth API not available after script load"))).
Proof.
  split.
  - intros pg Hg r. subst r. unfold loadGoogleOAuthScript.
    cbn [google_accounts]. rewrite Hg. cbn [fst snd]. unfold settle.
    cbn [promises]. rewrite list_lookup_middle by done. cbn.
    rewrite list_lookup_insert_eq by (rewrite length_app; cbn; lia).
    repeat split; try done.
    rewrite insert_app_r_alt by done. by rewrite Nat.sub_diag.
  - intros pg Hg Hq r p i j. subst r p i j.
    unfold loadGoogleOAuthScript. cbn [google_accounts]. rewrite Hg.
    unfold querySelector in *. cbn [scripts]. rewrite Hq. cbn [fst snd].
    split; [reflexivity|]. cbn zeta.
    set (el := {| src := GSI_CLIENT_SRC; phase := InFlight;
                  on_load := [CheckAfterDelay (length (promises pg)) 100];
                  on_error := [RejectNow (length (promises pg))
                                 "Failed to load Google OAuth script"] |}).
    set (called := set_scripts (scripts pg ++ [el]) _).
    assert (page_step called (ScriptLoads (length (scripts pg)) false) =
            {| google_accounts := false;
               scripts := <[length (scripts pg) := set_phase Loaded el]>
                            (scripts pg ++ [el]);
               timers := timers pg ++
                 [{| delay := 100; target := length (promises pg) |}];
               promises := promises pg ++ [Pending] |}) as ->.
    { unfold page_step. subst called. cbn [set_scripts scripts].
      rewrite list_lookup_middle by done. reflexivity. }
    cbn [promises timers google_accounts].
    split; [by rewrite list_lookup_middle|].
    split; [by rewrite list_lookup_middle|].
    split; [done|].
    unfold page_step. cbn [timers]. rewrite list_lookup_middle by done.
    cbn [target]. unfold timer_callback. cbn [google_accounts].
    unfold settle. cbn [promises]. rewrite list_lookup_middle by done.
    cbn [promises].
    apply list_lookup_insert_eq. rewrite length_app. cbn. lia.
Qed.

Lemma loader_present_resolves_unavailable_rejects_witness :
  promises
    (page_step
       (page_step (fst (loadGoogleOAuthScript fresh_page))
          (ScriptLoads 0 false))
       (TimerFires 0)) !! 0%nat =
  Some (RejectedWith
          (ErrorObj "Google OAuth API not available after script load")).
Proof.
  destruct loader_present_resolves_unavailable_rejects as [_ H].
  destruct (H fresh_page eq_refl eq_refl) as (_ & _ & _ & _ & Hrej).
  exact Hrej.
Defined.

(** C8, counterexample to the spec's statement: on a fresh page one call
    issues the fetch and a second call finds the script element and
    attaches to it.  The script loads and does not define the API, and
    the settle delay ends with the API still absent.  The second call's
    promise was resolved by the load event and stays resolved: that call
    does not reject, although the call that issued the fetch does. *)
Lemma attached_call_resolves_without_api :
  let first := loadGoogleOAuthScript fresh_page in
  let second := loadGoogleOAuthScript (fst first) in
  let loaded := page_step (fst second) (ScriptLoads 0 false) in
  let delayed := page_step loaded (TimerFires 0) in
  snd first <> snd second /\
  length (scripts (fst second)) = 1%nat /\
  google_accounts loaded = false /\
  google_accounts delayed = false /\
  promises loaded !! snd second = Some Resolved /\
  promises delayed !! snd second = Some Resolved /\
  promises delayed !! snd second <>
    Some (RejectedWith
            (ErrorObj "Google OAuth API not available after script load")) /\
  promises delayed !! snd first =
    Some (RejectedWith
            (ErrorObj "Google OAuth API not available after script load")).
Proof. cbn. repeat split; discriminate. Qed.

(** ** The script loader: fetches, waiters and ended fetches *)

Lemma scripts_settle p st pg : scripts (settle p st pg) = scripts pg.
Proof. unfold settle. by destruct (promises pg !! p) as [[| |]|]. Qed.

Lemma timers_settle p st pg : timers (settle p st pg) = timers pg.
Proof. unfold settle. by destruct (promises pg !! p) as [[| |]|]. Qed.

Lemma google_settle p st pg :
  google_accounts (settle p st pg) = google_accounts pg.
Proof. unfold settle. by destruct (promises pg !! p) as [[| |]|]. Qed.

Lemma length_promises_settle p st pg :
  length (promises (settle p st pg)) = length (promises pg).
Proof.
  unfold settle. destruct (promises pg !! p) as [[| |]|]; try done.
  cbn. apply length_insert.
Qed.


Lemma promises_settle_pending p st pg :
  promises pg !! p = Some Pending ->
  promises (settle p st pg) !! p = Some st.
Proof.
  intros Hp. unfold settle. rewrite Hp. cbn.
  apply list_lookup_insert_eq. by apply lookup_lt_Some in Hp.
Qed.

Lemma scripts_run_handlers hs pg :
  scripts (foldl run_handler pg hs) = scripts pg.
Proof.
  revert pg. induction hs as [|h hs IH]; intros pg; [done|].
  cbn. rewrite IH. destruct h; cbn; by rewrite ?scripts_settle.
Qed.


Lemma filter_insert_same {A} (P : A -> Prop) `{!forall x, Decision (P x)}
    (l : list A) i x y :
  l !! i = Some x -> (P x <-> P y) ->
  length (filter P (<[i := y]> l)) = length (filter P l).
Proof.
  revert i. induction l as [|z l IH]; intros i Hi Hxy; [done|].
  destruct i as [|i]; cbn in Hi.
  - simplify_eq. change (<[0%nat := y]> (x :: l)) with (y :: l).
    rewrite !filter_cons.
    destruct (decide (P y)), (decide (P x)); tauto.
  - change (<[S i := y]> (z :: l)) with (z :: <[i := y]> l).
    rewrite !filter_cons. specialize (IH i Hi Hxy).
    destruct (decide (P z)); cbn; by rewrite IH.
Qed.

Lemma filter_none {A} (P : A -> Prop) `{!forall x, Decision (P x)}
    (l : list A) :
  Forall (fun x => ~ P x) l -> filter P l = [].
Proof.
  induction 1 as [|x l Hx _ IH]; [done|].
  by rewrite filter_cons_False.
Qed.

Lemma gsi_elements_step pg ev :
  (length (gsi_elements (page_step pg ev)) <=
   Nat.max 1 (length (gsi_elements pg)))%nat.
Proof.
  unfold gsi_elements. destruct ev as [|i api|i|j|]; cbn.
  - unfold loadGoogleOAuthScript. cbn [google_accounts].
    destruct (google_accounts pg).
    { cbn [fst]. rewrite scripts_settle. cbn. lia. }
    unfold querySelector. cbn [scripts].
    destruct (list_find _ (scripts pg)) as [[i el]|] eqn:Hfind; cbn [fst].
    + apply list_find_Some in Hfind as (Hi & _ & _). cbn.
      rewrite (filter_insert_same _ _ i el) by done. lia.
    + apply list_find_None in Hfind. cbn. rewrite filter_app.
      rewrite (filter_none _ _ Hfind).
      rewrite filter_cons. cbn.
      destruct (decide (GSI_CLIENT_SRC = GSI_CLIENT_SRC)); cbn; lia.
  - destruct (scripts pg !! i) as [el|] eqn:Hi; [|lia].
    destruct (phase el); try lia.
    rewrite scripts_run_handlers. cbn.
    rewrite (filter_insert_same _ _ i el) by done. lia.
  - destruct (scripts pg !! i) as [el|] eqn:Hi; [|lia].
    destruct (phase el); try lia.
    rewrite scripts_run_handlers. cbn.
    rewrite (filter_insert_same _ _ i el) by done. lia.
  - destruct (timers pg !! j) as [tm|]; [|lia].
    unfold timer_callback. cbn [google_accounts].
    destruct (google_accounts pg); rewrite scripts_settle; cbn; lia.
  - lia.
Qed.

(** X1. However often the loader is called and whatever the page does in
    between, the loader appends a script element only when none matches
    its selector: the number of matching elements never exceeds one,
    unless the page already held more before. *)
Theorem loader_appends_at_most_one_script pg evs :
  (length (gsi_elements (page_run evs pg)) <=
   Nat.max 1 (length (gsi_elements pg)))%nat.
Proof.
  revert pg. induction evs as [|ev evs IH]; intros pg; cbn; [lia|].
  specialize (IH (page_step pg ev)).
  pose proof (gsi_elements_step pg ev). unfold page_run in IH. lia.
Qed.

Lemma page_wf_grow pg n :
  (length (promises pg) <= n)%nat ->
  page_wf pg ->
  Forall (fun tm => (target tm < n)%nat) (timers pg) /\
  Forall (fun el => Forall (fun h => (handler_target h < n)%nat)
                      (on_load el ++ on_error el)) (scripts pg).
Proof.
  intros Hn [Ht Hs]. split.
  - eapply Forall_impl; [exact Ht|]. cbn. intros; lia.
  - eapply Forall_impl; [exact Hs|]. cbn. intros el Hel.
    eapply Forall_impl; [exact Hel|]. cbn. intros; lia.
Qed.

Lemma page_wf_settle p st pg : page_wf pg -> page_wf (settle p st pg).
Proof.
  intros Hwf. unfold page_wf.
  by rewrite length_promises_settle, timers_settle, scripts_settle.
Qed.

Lemma page_wf_run_handlers hs pg :
  Forall (fun h => (handler_target h < length (promises pg))%nat) hs ->
  page_wf pg -> page_wf (foldl run_handler pg hs).
Proof.
  revert pg. induction hs as [|h hs IH]; intros pg Hhs Hwf; [done|].
  apply Forall_cons in Hhs as [Hh Hhs]. cbn.
  destruct h as [q|q msg|q ms]; cbn in Hh |- *.
  - apply IH; [by rewrite length_promises_settle|by apply page_wf_settle].
  - apply IH; [by rewrite length_promises_settle|by apply page_wf_settle].
  - apply IH; [done|]. destruct Hwf as [Ht Hs]. split; [|done]. cbn.
    apply Forall_app_2; [done|]. by apply Forall_singleton.
Qed.

Lemma page_wf_loader pg :
  page_wf pg -> page_wf (fst (loadGoogleOAuthScript pg)).
Proof.
  intros Hwf.
  destruct (page_wf_grow pg (S (length (promises pg))) ltac:(lia) Hwf)
    as [Ht Hs].
  assert (page_wf
            {| google_accounts := google_accounts pg; scripts := scripts pg;
               timers := timers pg; promises := promises pg ++ [Pending] |})
    as Hwf'.
  { split; cbn; rewrite length_app, Nat.add_1_r; done. }
  unfold loadGoogleOAuthScript. cbn [google_accounts].
  destruct (google_accounts pg).
  { cbn [fst]. by apply page_wf_settle. }
  unfold querySelector. cbn [scripts].
  destruct (list_find _ (scripts pg)) as [[i el]|] eqn:Hfind; cbn [fst].
  - apply list_find_Some in Hfind as (Hi & _ & _).
    destruct Hwf' as [Ht' Hs']. split; [done|]. cbn in *.
    apply Forall_insert; [done|]. cbn.
    pose proof (Forall_lookup_1 _ _ _ _ Hs' Hi) as Hel.
    apply Forall_app in Hel as [Hl He].
    repeat apply Forall_app_2; try done; apply Forall_singleton; cbn;
      rewrite length_app; cbn; lia.
  - destruct Hwf' as [Ht' Hs']. split; [done|]. cbn in *.
    apply Forall_app_2; [done|]. apply Forall_singleton. cbn.
    repeat constructor; cbn; rewrite length_app; cbn; lia.
Qed.

Lemma page_wf_step pg ev : page_wf pg -> page_wf (page_step pg ev).
Proof.
  intros Hwf. destruct ev as [|i api|i|j|]; cbn.
  - by apply page_wf_loader.
  - destruct (scripts pg !! i) as [el|] eqn:Hi; [|done].
    destruct (phase el); try done.
    destruct Hwf as [Ht Hs].
    pose proof (Forall_lookup_1 _ _ _ _ Hs Hi) as Hel.
    apply Forall_app in Hel as [Hl He].
    apply page_wf_run_handlers; [done|]. split; [done|]. cbn.
    apply Forall_insert; [done|]. cbn. by apply Forall_app_2.
  - destruct (scripts pg !! i) as [el|] eqn:Hi; [|done].
    destruct (phase el); try done.
    destruct Hwf as [Ht Hs].
    pose proof (Forall_lookup_1 _ _ _ _ Hs Hi) as Hel.
    apply Forall_app in Hel as [Hl He].
    apply page_wf_run_handlers; [done|]. split; [done|]. cbn.
    apply Forall_insert; [done|]. cbn. by apply Forall_app_2.
  - destruct (timers pg !! j) as [tm|] eqn:Hj; [|done].
    destruct Hwf as [Ht Hs].
    assert (page_wf
              {| google_accounts := google_accounts pg;
                 scripts := scripts pg; timers := delete j (timers pg);
                 promises := promises pg |}) as Hwf'.
    { split; [|done]. cbn. by apply Forall_delete. }
    unfold timer_callback. cbn [google_accounts].
    destruct (google_accounts pg); by apply page_wf_settle.
  - done.
Qed.

Lemma page_wf_run evs pg : page_wf pg -> page_wf (page_run evs pg).
Proof.
  revert pg. induction evs as [|ev evs IH]; intros pg Hwf; [done|].
  cbn. apply IH. by apply page_wf_step.
Qed.

Lemma page_wf_fresh : page_wf fresh_page.
Proof. split; constructor. Qed.

(** A call that finds a matching element whose fetch has ended strands
    its promise. *)
Lemma loader_strands_on_ended_fetch pg i el :
  page_wf pg ->
  google_accounts pg = false ->
  querySelector pg = Some (i, el) ->
  phase el <> InFlight ->
  stranded (snd (loadGoogleOAuthScript pg)) (fst (loadGoogleOAuthScript pg)).
Proof.
  intros Hwf Hg Hq Hph. unfold loadGoogleOAuthScript.
  cbn [google_accounts]. rewrite Hg.
  unfold querySelector in *. cbn [scripts]. rewrite Hq. cbn [fst snd].
  apply list_find_Some in Hq as (Hi & _ & _).
  destruct Hwf as [Ht Hs]. split; [|split]; cbn.
  - by apply list_lookup_middle.
  - eapply Forall_impl; [exact Ht|]. cbn. intros; lia.
  - apply Forall_insert; [|done].
    eapply Forall_impl; [exact Hs|]. cbn. intros el' Hel' _.
    eapply Forall_impl; [exact Hel'|]. cbn. intros; lia.
Qed.

(** X4. On any page reached from a fresh one: when the API is absent and
    the element the selector finds has a fetch that already ended
    (loaded or failed), a call of the loader issues no fetch and returns
    a promise that no later page event or loader call ever settles, even
    if the API appears afterwards. *)
Theorem call_after_ended_fetch_never_settles history i el evs :
  let pg := page_run history fresh_page in
  google_accounts pg = false ->
  querySelector pg = Some (i, el) ->
  phase el <> InFlight ->
  let r := loadGoogleOAuthScript pg in
  length (scripts (fst r)) = length (scripts pg) /\
  promises (page_run evs (fst r)) !! snd r = Some Pending.
Proof.
  intros pg Hg Hq Hph r. split.
  - subst r. unfold loadGoogleOAuthScript. cbn [google_accounts].
    rewrite Hg. unfold querySelector in Hq |- *. cbn [scripts].
    rewrite Hq. cbn. apply length_insert.
  - eapply page_run_keeps_stranded.
    eapply loader_strands_on_ended_fetch; eauto.
    apply page_wf_run, page_wf_fresh.
Qed.

Lemma call_after_ended_fetch_never_settles_witness :
  promises
    (page_run [ApiAppears; CallLoader; TimerFires 0]
       (fst (loadGoogleOAuthScript
               (page_run [CallLoader; ScriptLoads 0 false; TimerFires 0]
                  fresh_page))))
    !! 1%nat = Some Pending.
Proof.
  pose proof (call_after_ended_fetch_never_settles
                [CallLoader; ScriptLoads 0 false; TimerFires 0] 0%nat
                {| src := GSI_CLIENT_SRC; phase := Loaded;
                   on_load := [CheckAfterDelay 0 100];
                   on_error :=
                     [RejectNow 0 "Failed to load Google OAuth script"] |}
                [ApiAppears; CallLoader; TimerFires 0]
                eq_refl eq_refl ltac:(discriminate)) as [_ H].
  exact H.
Defined.



Lemma fetching_call_loaded pg api :
  google_accounts pg = false ->
  querySelector pg = None ->
  let p := length (promises pg) in
  let el := {| src := GSI_CLIENT_SRC; phase := InFlight;
               on_load := [CheckAfterDelay p 100];
               on_error :=
                 [RejectNow p "Failed to load Google OAuth script"] |} in
  loadGoogleOAuthScript pg =
    ({| google_accounts := false; scripts := scripts pg ++ [el];
        timers := timers pg; promises := promises pg ++ [Pending] |}, p) /\
  page_step (fst (loadGoogleOAuthScript pg))
    (ScriptLoads (length (scripts pg)) api) =
    {| google_accounts := api;
       scripts := <[length (scripts pg) := set_phase Loaded el]>
                    (scripts pg ++ [el]);
       timers := timers pg ++ [{| delay := 100; target := p |}];
       promises := promises pg ++ [Pending] |}.
Proof.
  intros Hg Hq p el.
  assert (loadGoogleOAuthScript pg =
          ({| google_accounts := false; scripts := scripts pg ++ [el];
              timers := timers pg; promises := promises pg ++ [Pending] |},
           p)) as Hcall.
  { unfold loadGoogleOAuthScript. cbn [google_accounts]. rewrite Hg.
    unfold querySelector in *. cbn [scripts]. by rewrite Hq. }
  split; [exact Hcall|]. rewrite Hcall. cbn [fst].
  unfold page_step. cbn [scripts].
  rewrite list_lookup_middle by done. reflexivity.
Qed.

Lemma timer_settles_waiting g ss ts ps p :
  ps !! p = Some Pending ->
  promises
    (page_step
       {| google_accounts := g; scripts := ss;
          timers := ts ++ [{| delay := 100; target := p |}];
          promises := ps |}
       (TimerFires (length ts))) !! p =
  Some (if g then Resolved
        else RejectedWith (ErrorObj
          "Google OAuth API not available after script load")).
Proof.
  intros Hp. unfold page_step. cbn [timers].
  rewrite list_lookup_middle by done. cbn [target].
  unfold timer_callback. cbn [google_accounts].
  destruct g; by apply promises_settle_pending.
Qed.

Lemma fetching_call_failed pg :
  google_accounts pg = false ->
  querySelector pg = None ->
  let broken := page_step (fst (loadGoogleOAuthScript pg))
                  (ScriptFails (length (scripts pg))) in
  promises broken !! length (promises pg) =
    Some (RejectedWith (ErrorObj "Failed to load Google OAuth script")) /\
  timers broken = timers pg.
Proof.
  intros Hg Hq. destruct (fetching_call_loaded pg true Hg Hq) as [-> _].
  cbn [fst]. unfold page_step. cbn [scripts].
  rewrite list_lookup_middle by done.
  cbn [phase on_error foldl run_handler set_scripts].
  rewrite timers_settle. split; [|done].
  apply promises_settle_pending. cbn. by apply list_lookup_middle.
Qed.

(** X3. The call that issues the fetch.  Once the script has loaded the
    promise waits for the 100 ms timer, and it is resolved when the API
    is there as the timer fires, whether the script defined it or it
    appeared during the delay.  When the fetch fails the promise is
    rejected at once with "Failed to load Google OAuth script" and no
    timer is armed. *)
Theorem fetching_call_outcomes pg :
  google_accounts pg = false ->
  querySelector pg = None ->
  let r := loadGoogleOAuthScript pg in
  let p := snd r in
  let i := length (scripts pg) in
  let j := length (timers pg) in
  (let loaded := page_step (fst r) (ScriptLoads i true) in
   promises loaded !! p = Some Pending /\
   promises (page_step loaded (TimerFires j)) !! p = Some Resolved) /\
  (let late := page_step (page_step (fst r) (ScriptLoads i false))
                 ApiAppears in
   promises late !! p = Some Pending /\
   promises (page_step late (TimerFires j)) !! p = Some Resolved) /\
  (let broken := page_step (fst r) (ScriptFails i) in
   promises broken !! p =
     Some (RejectedWith (ErrorObj "Failed to load Google OAuth script")) /\
   timers broken = timers pg).
Proof.
  intros Hg Hq r p i j. subst r p i j.
  destruct (fetching_call_loaded pg true Hg Hq) as [Hcall Htrue].
  destruct (fetching_call_loaded pg false Hg Hq) as [_ Hfalse].
  pose proof (fetching_call_failed pg Hg Hq) as Hfail.
  cbv zeta in *. rewrite Htrue, Hfalse. rewrite Hcall in Hfail |- *.
  cbn [fst snd] in Hfail |- *.
  assert ((promises pg ++ [Pending]) !! length (promises pg) =
          Some Pending) as Hp by by apply list_lookup_middle.
  split; [|split].
  - split; [exact Hp|]. by apply (timer_settles_waiting true).
  - cbn [page_step google_accounts scripts timers promises].
    split; [exact Hp|]. by apply (timer_settles_waiting true).
  - exact Hfail.
Qed.

Lemma fetching_call_outcomes_witness :
  promises
    (page_step
       (page_step (fst (loadGoogleOAuthScript fresh_page))
          (ScriptLoads 0 true))
       (TimerFires 0)) !! 0%nat = Some Resolved.
Proof.
  destruct (fetching_call_outcomes fresh_page eq_refl eq_refl)
    as ([_ H] & _ & _).
  exact H.
Defined.

(** ** The bootstrap effect *)

Lemma validateGoogleClientId_false client_id :
  validateGoogleClientId client_id = false <->
  client_id = "" \/ client_id = "your_google_client_id_here".
Proof.
  unfold validateGoogleClientId. rewrite andb_false_iff.
  rewrite bool_decide_eq_false, negb_false_iff, bool_decide_eq_true.
  split; intros [H|H]; auto.
  - left. destruct client_id; [done|]. cbn in H. lia.
  - left. subst. cbn. lia.
Qed.

Lemma run_loadScriptEffect_open props client_id w :
  validateGoogleClientId client_id = true ->
  run (loadScriptEffect props client_id true) w =
  (record OLoadScript w, AwaitingScript (cont_script props)).
Proof. intros H. unfold loadScriptEffect. by rewrite H. Qed.

Lemma run_cont_script props o w :
  run (cont_script props o) w =
  (match o with
   | Fulfilled _ => do_set_loaded true w
   | Rejected _ =>
       record (OMessageError
                 (js_or (t props "auth.googleLoadFailed")
                        "Failed to load Google authentication") 5) w
   end, Finished).
Proof. by destruct o. Qed.

(** X6. The bootstrap effect does nothing at all, calling neither the
    loader nor [message.error], exactly when the configured client id is
    empty or still the placeholder "your_google_client_id_here", or the
    modal is closed; in every other case it calls the loader and
    suspends on its promise. *)
Theorem bootstrap_skipped_iff_unconfigured_or_closed
    props client_id isOpen w :
  let r := run (loadScriptEffect props client_id isOpen) w in
  (r = (w, Finished) <->
   client_id = "" \/ client_id = "your_google_client_id_here" \/
   isOpen = false) /\
  (r <> (w, Finished) ->
   r = (record OLoadScript w, AwaitingScript (cont_script props))).
Proof.
  intros r. subst r. unfold loadScriptEffect.
  destruct (validateGoogleClientId client_id) eqn:Hv; cbn [negb].
  - assert (~ (client_id = "" \/
               client_id = "your_google_client_id_here")) as Hno.
    { intros H. apply validateGoogleClientId_false in H. congruence. }
    destruct isOpen; cbn.
    + split; [|done]. split; [discriminate|]. intros [?|[?|?]]; naive_solver.
    + split; [|done]. split; auto.
  - apply validateGoogleClientId_false in Hv.
    split; [|done]. split; [tauto|done].
Qed.

Lemma deliver_to_pending pg p k w :
  promises pg !! p = Some Pending ->
  deliver_to pg [(p, k)] w = (w, [(p, k)]).
Proof. intros Hp. cbn. by rewrite Hp. Qed.

Lemma deliver_to_settled pg p k w st o :
  promises pg !! p = Some st ->
  promise_outcome st = Some o ->
  deliver_to pg [(p, k)] w = (fst (run (k o) w), []).
Proof. intros Hp Ho. cbn. rewrite Hp. cbn. by rewrite Ho. Qed.

(** X7. The bootstrap on a page that has neither the API nor the script,
    with a configured client id and the modal open: the effect calls the
    loader and nothing else happens until the page answers.  When the
    script loads with the API and the settle delay ends, the component
    sets [isGoogleLoaded] and shows nothing; when the fetch fails it
    shows one error notification and leaves [isGoogleLoaded] and the auth
    state as they were. *)
Theorem bootstrap_on_empty_page props client_id b :
  validateGoogleClientId client_id = true ->
  waiting b = [] ->
  google_accounts (doc b) = false ->
  querySelector (doc b) = None ->
  let i := length (scripts (doc b)) in
  let j := length (timers (doc b)) in
  let b1 := run_loadScript_effect props client_id true b in
  let loaded := on_page_event b1 (ScriptLoads i true) in
  let ready := on_page_event loaded (TimerFires j) in
  let broken := on_page_event b1 (ScriptFails i) in
  (emitted (app b) (app b1) = [OLoadScript] /\
   isGoogleLoaded (app b1) = isGoogleLoaded (app b)) /\
  (app loaded = app b1 /\
   isGoogleLoaded (app ready) = true /\
   emitted (app b) (app ready) = [OLoadScript; OSetIsGoogleLoaded true] /\
   waiting ready = []) /\
  (isGoogleLoaded (app broken) = isGoogleLoaded (app b) /\
   auth (app broken) = auth (app b) /\
   emitted (app b) (app broken) =
     [OLoadScript;
      OMessageError (js_or (t props "auth.googleLoadFailed")
                       "Failed to load Google authentication") 5] /\
   waiting broken = []).
Proof.
  intros Hv Hw Hg Hq i j b1 loaded ready broken.
  destruct (fetching_call_loaded (doc b) true Hg Hq) as [Hcall Hload].
  destruct (fetching_call_failed (doc b) Hg Hq) as [Hrej _].
  cbv zeta in *. rewrite Hcall in Hload, Hrej. cbn [fst snd] in Hload, Hrej.
  assert ((promises (doc b) ++ [Pending]) !! length (promises (doc b)) =
          Some Pending) as Hp by by apply list_lookup_middle.
  assert (promises
            (page_step
               (page_step
                  (fst (loadGoogleOAuthScript (doc b)))
                  (ScriptLoads (length (scripts (doc b))) true))
               (TimerFires (length (timers (doc b)))))
            !! length (promises (doc b)) = Some Resolved) as Hres'.
  { rewrite Hcall. cbn [fst]. rewrite Hload.
    by apply (timer_settles_waiting true). }
  rewrite Hcall in Hres'. cbn [fst] in Hres'.
  assert (promises
            (page_step
               {| google_accounts := false;
                  scripts := scripts (doc b) ++
                    [{| src := GSI_CLIENT_SRC; phase := InFlight;
                        on_load :=
                          [CheckAfterDelay (length (promises (doc b))) 100];
                        on_error :=
                          [RejectNow (length (promises (doc b)))
                             "Failed to load Google OAuth script"] |}];
                  timers := timers (doc b);
                  promises := promises (doc b) ++ [Pending] |}
               (ScriptLoads (length (scripts (doc b))) true))
            !! length (promises (doc b)) = Some Pending) as Hpend.
  { rewrite Hload. exact Hp. }
  rename Hres' into Hres.
  assert (b1 = {| app := record OLoadScript (app b);
                  doc := fst (loadGoogleOAuthScript (doc b));
                  waiting := [(length (promises (doc b)),
                               cont_script props)] |}) as Hb1.
  { subst b1. unfold run_loadScript_effect.
    rewrite run_loadScriptEffect_open by done. rewrite Hw, Hcall.
    unfold deliver. cbn [doc waiting app fst app_nil_l].
    rewrite app_nil_l, deliver_to_pending; [done|].
    cbn. by apply list_lookup_middle. }
  rewrite Hcall in Hb1. cbn [fst] in Hb1.
  assert (loaded = {| app := app b1; doc := doc loaded;
                      waiting := waiting b1 |} /\
          doc loaded = page_step (doc b1) (ScriptLoads i true)) as [Hl Hld].
  { subst loaded. unfold on_page_event, deliver. cbn [doc waiting app].
    rewrite Hb1. cbn [doc waiting app]. subst i.
    rewrite deliver_to_pending by exact Hpend. done. }
  split; [|split].
  - rewrite Hb1. cbn [app]. split; [|done]. by apply emitted_app.
  - split; [by rewrite Hl|].
    subst ready. unfold on_page_event, deliver.
    rewrite Hl. cbn [doc waiting app]. rewrite Hld, Hb1.
    cbn [doc waiting app]. subst i j.
    erewrite deliver_to_settled; [|exact Hres|reflexivity].
    rewrite run_cont_script. cbn [fst app waiting].
    repeat split. apply emitted_app. cbn. by rewrite <- app_assoc.
  - subst broken. unfold on_page_event, deliver.
    rewrite Hb1. cbn [doc waiting app]. subst i.
    erewrite deliver_to_settled; [|exact Hrej|reflexivity].
    rewrite run_cont_script. cbn [fst app waiting].
    repeat split. apply emitted_app. cbn. by rewrite <- app_assoc.
Qed.

Lemma bootstrap_on_empty_page_witness :
  isGoogleLoaded
    (app (on_page_event
            (on_page_event
               (run_loadScript_effect props0 "client-id" true
                  {| app := w0; doc := fresh_page; waiting := [] |})
               (ScriptLoads 0 true))
            (TimerFires 0))) = true.
Proof.
  pose proof (bootstrap_on_empty_page props0 "client-id"
                {| app := w0; doc := fresh_page; waiting := [] |}
                eq_refl eq_refl eq_refl eq_refl) as H.
  cbv zeta in H. destruct H as (_ & (_ & H & _) & _). exact H.
Defined.

Lemma loader_call_present pg :
  google_accounts pg = true ->
  loadGoogleOAuthScript pg =
  ({| google_accounts := true; scripts := scripts pg; timers := timers pg;
      promises := promises pg ++ [Resolved] |}, length (promises pg)).
Proof.
  intros Hg. unfold loadGoogleOAuthScript. cbn [google_accounts].
  rewrite Hg. unfold settle. cbn [promises].
  rewrite list_lookup_middle by done. cbn.
  rewrite insert_app_r_alt by done. by rewrite Nat.sub_diag.
Qed.

(** X8. When the API is already on the page, the bootstrap effect (with
    a configured client id and the modal open) completes in one go: the
    loader is called, its promise is already resolved, and the component
    sets [isGoogleLoaded] without touching the document, arming a timer
    or showing anything. *)
Theorem bootstrap_with_api_present props client_id b :
  validateGoogleClientId client_id = true ->
  waiting b = [] ->
  google_accounts (doc b) = true ->
  let b1 := run_loadScript_effect props client_id true b in
  isGoogleLoaded (app b1) = true /\
  emitted (app b) (app b1) = [OLoadScript; OSetIsGoogleLoaded true] /\
  auth (app b1) = auth (app b) /\
  scripts (doc b1) = scripts (doc b) /\
  timers (doc b1) = timers (doc b) /\
  waiting b1 = [].
Proof.
  intros Hv Hw Hg b1. subst b1. unfold run_loadScript_effect.
  rewrite run_loadScriptEffect_open by done.
  rewrite Hw, loader_call_present by done.
  unfold deliver. cbn [doc waiting app app_nil_l]. rewrite app_nil_l.
  erewrite deliver_to_settled;
    [|cbn; by apply list_lookup_middle|reflexivity].
  rewrite run_cont_script. cbn [fst app doc waiting scripts timers].
  repeat split. apply emitted_app. cbn. by rewrite <- app_assoc.
Qed.

Lemma bootstrap_with_api_present_witness :
  isGoogleLoaded
    (app (run_loadScript_effect props0 "client-id" true
            {| app := w0;
               doc := page_step fresh_page ApiAppears;
               waiting := [] |})) = true.
Proof.
  pose proof (bootstrap_with_api_present props0 "client-id"
                {| app := w0; doc := page_step fresh_page ApiAppears;
                   waiting := [] |} eq_refl eq_refl eq_refl) as H.
  cbv zeta in H. destruct H as (H & _). exact H.
Defined.

Lemma on_page_events_stranded p k w pg evs :
  stranded p pg ->
  exists pg',
    on_page_events evs {| app := w; doc := pg; waiting := [(p, k)] |} =
      {| app := w; doc := pg'; waiting := [(p, k)] |} /\
    stranded p pg'.
Proof.
  revert pg. induction evs as [|ev evs IH]; intros pg Hst; [by eexists|].
  pose proof (page_step_keeps_stranded p pg ev Hst) as Hst'.
  destruct (IH _ Hst') as (pg' & Hrun & Hpg'). exists pg'. split; [|done].
  cbn. unfold on_page_event at 2, deliver. cbn [doc waiting app].
  rewrite deliver_to_pending by apply Hst'. exact Hrun.
Qed.

Lemma deliver_to_keeps pg ws w p k :
  promises pg !! p = Some Pending ->
  (p, k) ∈ ws ->
  (p, k) ∈ snd (deliver_to pg ws w).
Proof.
  intros Hp. revert w. induction ws as [|[q k'] rest IH]; intros w Hin.
  - by apply elem_of_nil in Hin.
  - cbn. apply elem_of_cons in Hin as [Heq|Hin].
    + injection Heq as <- <-. rewrite Hp. cbn.
      destruct (deliver_to pg rest w) as [w' rest']. left.
    + destruct (promises pg !! q ≫= promise_outcome) as [o|].
      * by apply IH.
      * specialize (IH w Hin).
        destruct (deliver_to pg rest w) as [w' rest']. by right.
Qed.

Lemma doc_deliver b : doc (deliver b) = doc b.
Proof.
  unfold deliver. by destruct (deliver_to (doc b) (waiting b) (app b)).
Qed.

Lemma waiting_deliver b :
  waiting (deliver b) = snd (deliver_to (doc b) (waiting b) (app b)).
Proof.
  unfold deliver. by destruct (deliver_to (doc b) (waiting b) (app b)).
Qed.

(** A run waiting on a stranded promise is never resumed. *)
Lemma on_page_events_keeps p k evs b :
  stranded p (doc b) ->
  (p, k) ∈ waiting b ->
  stranded p (doc (on_page_events evs b)) /\
  (p, k) ∈ waiting (on_page_events evs b).
Proof.
  revert b. induction evs as [|ev evs IH]; intros b Hst Hin; [done|].
  cbn. apply IH.
  - unfold on_page_event. rewrite doc_deliver. cbn.
    by apply page_step_keeps_stranded.
  - unfold on_page_event. rewrite waiting_deliver. cbn [doc waiting app].
    apply deliver_to_keeps; [|done].
    by apply (page_step_keeps_stranded p (doc b) ev).
Qed.

(** X9. The bootstrap after an ended fetch.  On any page reached from a
    fresh one on which the API is absent and the matching script element
    has already loaded or failed, running the bootstrap effect again
    (the modal is reopened) calls the loader, and that run then stays
    suspended for ever: whatever the page does afterwards its promise is
    not settled, so it neither sets [isGoogleLoaded] nor shows its error
    notification.  When no earlier run of the effect is still waiting,
    nothing more happens in the component at all: the only observation
    is the loader call. *)
Theorem bootstrap_after_ended_fetch_is_silent
    props client_id history b i el evs :
  validateGoogleClientId client_id = true ->
  doc b = page_run history fresh_page ->
  google_accounts (doc b) = false ->
  querySelector (doc b) = Some (i, el) ->
  phase el <> InFlight ->
  let p := snd (loadGoogleOAuthScript (doc b)) in
  let later :=
    on_page_events evs (run_loadScript_effect props client_id true b) in
  (p, cont_script props) ∈ waiting later /\
  promises (doc later) !! p = Some Pending /\
  (waiting b = [] ->
   emitted (app b) (app later) = [OLoadScript] /\
   isGoogleLoaded (app later) = isGoogleLoaded (app b) /\
   auth (app later) = auth (app b) /\
   waiting later = [(p, cont_script props)]).
Proof.
  intros Hv Hdoc Hg Hq Hph p later.
  assert (stranded p (fst (loadGoogleOAuthScript (doc b)))) as Hst.
  { eapply loader_strands_on_ended_fetch; eauto.
    rewrite Hdoc. apply page_wf_run, page_wf_fresh. }
  subst later. unfold run_loadScript_effect.
  rewrite run_loadScriptEffect_open by done.
  subst p. destruct (loadGoogleOAuthScript (doc b)) as [pg p].
  cbn [fst snd] in Hst |- *.
  set (called := {| app := record OLoadScript (app b); doc := pg;
                    waiting := waiting b ++ [(p, cont_script props)] |}).
  destruct (on_page_events_keeps p (cont_script props) evs (deliver called))
    as [Hst' Hin].
  { by rewrite doc_deliver. }
  { rewrite waiting_deliver. apply deliver_to_keeps; [apply Hst|].
    cbn. apply elem_of_app. right. left. }
  split; [exact Hin|]. split; [apply Hst'|].
  intros Hw. subst called. rewrite Hw, app_nil_l.
  unfold deliver. cbn [doc waiting app].
  rewrite deliver_to_pending by apply Hst.
  destruct (on_page_events_stranded p (cont_script props)
              (record OLoadScript (app b)) pg evs Hst) as (pg' & -> & _).
  cbn [app waiting]. repeat split. by apply emitted_app.
Qed.

Lemma bootstrap_after_ended_fetch_is_silent_witness :
  log (app (on_page_events [ApiAppears; ScriptLoads 0 true; TimerFires 0]
              (run_loadScript_effect props0 "client-id" true
                 {| app := w0;
                    doc := page_run [CallLoader; ScriptFails 0] fresh_page;
                    waiting := [] |}))) = [OLoadScript].
Proof.
  pose proof (bootstrap_after_ended_fetch_is_silent props0 "client-id"
                [CallLoader; ScriptFails 0]
                {| app := w0;
                   doc := page_run [CallLoader; ScriptFails 0] fresh_page;
                   waiting := [] |}
                0%nat
                {| src := GSI_CLIENT_SRC; phase := Errored;
                   on_load := [CheckAfterDelay 0 100];
                   on_error :=
                     [RejectNow 0 "Failed to load Google OAuth script"] |}
                [ApiAppears; ScriptLoads 0 true; TimerFires 0]
                eq_refl eq_refl eq_refl eq_refl
                ltac:(discriminate)) as H.
  cbv zeta in H. destruct H as (_ & _ & H).
  destruct (H eq_refl) as (Hlog & _). exact Hlog.
Defined.

(** ** The credential callback: what every turn preserves *)

(** Any property of the world that the callback's primitive steps keep
    is kept by every turn of every interleaving. *)
Lemma turn_world_ind (P : World -> Prop) props atts s i :
  (forall o w, P w -> P (record o w)) ->
  (forall act w, P w -> P (do_dispatch act w)) ->
  (forall access refresh w, P w -> P (persist_tokens access refresh w)) ->
  sys_ok props atts s ->
  P (world s) -> P (world (turn props atts s i)).
Proof.
  intros Hrec Hdis Hper Hok HP. unfold turn.
  destruct (atts !! i) as [a|] eqn:Ha; [|done].
  assert (forall m w, P w -> P (fail_with m w)) as Hfail
    by (intros; unfold fail_with; auto).
  assert (forall ud w, P w -> P (succeed_with props ud w)) as Hsucc.
  { intros ud w Hw. unfold succeed_with.
    destruct (onSuccess props); auto 10. }
  destruct (tasks s !! i) as [st|] eqn:Hi.
  - specialize (Hok i a st Ha Hi).
    destruct st as [| |cred k|k|k]; cbn in Hok; try done.
    + destruct Hok as [_ ->]. cbn [resume]. rewrite run_cont_login.
      destruct (exchange a) as [result|e]; [|cbn; auto].
      destruct (tokens_of result) as [[access refresh]|]; cbn; auto.
    + destruct Hok as (_ & _ & ->). cbn [resume]. rewrite run_cont_getMe.
      cbn. destruct (profile a) as [[ud|]|e]; auto.
  - rewrite run_handleGoogleCallback.
    destruct (truthy_string (credential (response a))); cbn; auto.
Qed.

Lemma exec_world_ind (P : World -> Prop) props atts sched w :
  (forall o w, P w -> P (record o w)) ->
  (forall act w, P w -> P (do_dispatch act w)) ->
  (forall access refresh w, P w -> P (persist_tokens access refresh w)) ->
  P w -> P (world (exec props atts sched (boot w))).
Proof.
  intros Hrec Hdis Hper HP.
  assert (forall s, sys_ok props atts s -> P (world s) ->
                    P (world (exec props atts sched s))) as Hgen.
  { induction sched as [|j sched IH]; intros s Hok Hs; [done|].
    cbn. apply IH; [by apply turn_ok|]. by apply turn_world_ind. }
  apply Hgen; [apply boot_ok|done].
Qed.

(** X10. Whatever attempts run and however their turns interleave, the
    callback writes no cookie other than access_token and refresh_token,
    never changes the page protocol or the [isGoogleLoaded] flag, and
    only ever appends to the log of observations. *)
Theorem callback_touches_only_token_cookies props atts sched w :
  session_frame w (world (exec props atts sched (boot w))).
Proof.
  apply (exec_world_ind (session_frame w)).
  - intros o w' (Hck & Hp & Hl & l & Hlog). repeat split; try done.
    exists (l ++ [o]). cbn. by rewrite Hlog, app_assoc.
  - intros act w' (Hck & Hp & Hl & l & Hlog). repeat split; try done.
    exists (l ++ [ODispatch act]). cbn. by rewrite Hlog, app_assoc.
  - intros access refresh w' (Hck & Hp & Hl & l & Hlog).
    split; [|split; [|split]].
    + intros name Ha Hr. rewrite <- Hck by done.
      destruct refresh as [rt|]; cbn; by simplify_map_eq.
    + by destruct refresh.
    + by destruct refresh.
    + destruct refresh as [rt|]; eexists; cbn; rewrite Hlog, <- !app_assoc;
        reflexivity.
  - repeat split. exists []. by rewrite app_nil_r.
Qed.

(** X11. The API client and the cookie jar never drift apart: if the
    API token equals the value of the access_token cookie before (or
    none is set), the same holds after every turn of every interleaving
    of login attempts. *)
Theorem api_token_stays_in_sync props atts sched w :
  api_token_in_sync w ->
  api_token_in_sync (world (exec props atts sched (boot w))).
Proof.
  apply (exec_world_ind api_token_in_sync); try done.
  intros access refresh w' _ tok Htok. cbn in Htok. simplify_eq.
  exists (token_cookie tok 1 w'). split; [|done].
  destruct refresh as [rt|]; cbn; by simplify_map_eq.
Qed.

Lemma api_token_stays_in_sync_witness :
  api_token_in_sync (world (exec props0 two_attempts overtaking (boot w0))).
Proof.
  apply api_token_stays_in_sync. intros tok Htok. discriminate Htok.
Defined.

(** How far an attempt has got after the turns it was given. *)
Lemma turns_track_progress props atts sched i a w :
  atts !! i = Some a ->
  match tasks (exec props atts sched (boot w)) !! i with
  | None => turns_of i sched = 0%nat
  | Some Finished => (1 <= turns_of i sched)%nat
  | Some (AwaitingLogin _ _) => turns_of i sched = 1%nat
  | Some (AwaitingGetMe _) => turns_of i sched = 2%nat
  | Some _ => False
  end.
Proof.
  intros Ha. induction sched as [|j sched IH] using rev_ind; [done|].
  pose proof (exec_ok props atts sched (boot w) (boot_ok props atts w))
    as Hok.
  unfold exec in *. rewrite foldl_snoc.
  set (s := foldl (turn props atts) (boot w) sched) in *.
  unfold turns_of in *. rewrite filter_app, length_app.
  destruct (decide (j = i)) as [->|Hne].
  - rewrite filter_cons_True by done. cbn [filter list_filter length].
    unfold turn. rewrite Ha.
    destruct (tasks s !! i) as [st|] eqn:Hi.
    + specialize (Hok i a st Ha Hi).
      destruct st as [| |cred k|k|k]; cbn in Hok; try done.
      * cbn. rewrite lookup_insert_eq. lia.
      * destruct Hok as [_ ->]. cbn [resume]. rewrite run_cont_login.
        destruct (exchange a) as [result|e];
          [|cbn; rewrite lookup_insert_eq; lia].
        destruct (tokens_of result) as [[access refresh]|];
          cbn; rewrite lookup_insert_eq; lia.
      * destruct Hok as (_ & _ & ->). cbn [resume]. rewrite run_cont_getMe.
        cbn. rewrite lookup_insert_eq. lia.
    + rewrite run_handleGoogleCallback.
      destruct (truthy_string (credential (response a)));
        cbn; rewrite lookup_insert_eq; lia.
  - rewrite filter_cons_False by done. cbn [filter list_filter length].
    rewrite Nat.add_0_r.
    assert (tasks (turn props atts s j) !! i = tasks s !! i) as ->; [|done].
    unfold turn. destruct (atts !! j) as [aj|]; [|done].
    destruct (match tasks s !! j with
              | Some susp => resume aj susp (world s)
              | None => run (handleGoogleCallback props (response aj))
                          (world s)
              end) as [w' st'].
    cbn. by rewrite lookup_insert_ne.
Qed.

(** X12. In any interleaving, an attempt never ends with an uncaught
    error, and it is finished once it has been given three turns: the
    callback's invocation and the settling of its two awaited calls. *)
Theorem attempt_finishes_within_three_turns props atts sched i a w :
  atts !! i = Some a ->
  let st := tasks (exec props atts sched (boot w)) !! i in
  (forall e, st <> Some (Uncaught e)) /\
  ((3 <= turns_of i sched)%nat -> st = Some Finished) /\
  (st = None <-> turns_of i sched = 0%nat).
Proof.
  intros Ha st. subst st.
  pose proof (turns_track_progress props atts sched i a w Ha) as H.
  destruct (tasks (exec props atts sched (boot w)) !! i)
    as [[| |cred k|k|k]|]; try done.
  all: split; [done|].
  all: split; [intros ?; first [done|lia]|].
  all: split; intros ?; first [done|lia].
Qed.

Lemma attempt_finishes_within_three_turns_witness :
  tasks (exec props0 two_attempts [1; 0; 1; 0; 1]%nat (boot w0)) !! 1%nat =
  Some Finished.
Proof.
  destruct (attempt_finishes_within_three_turns props0 two_attempts
              [1; 0; 1; 0; 1]%nat 1%nat attempt_alice w0 eq_refl)
    as (_ & H & _).
  apply H. vm_compute. lia.
Defined.

(** Case analysis over everything an attempt's run depends on. *)
Ltac attempt_cases props a :=
  destruct (truthy_string (credential (response a)));
  [destruct (exchange a)
     as [[[sc msg [[[access|] [refresh|]]|]]|]|e];
   cbn [tokens_of has_access_token data accessToken refreshToken
        truthy_opt andb];
   repeat match goal with
          | |- context [truthy_string ?s] => destruct (truthy_string s)
          end;
   destruct (profile a) as [[ud|]|e'];
   cbn [profile_obs profile_state];
   destruct (onSuccess props)|].

(** X13. One attempt calls the exchange at most once, with exactly the
    credential it was given and only if that is non-empty; it calls the
    profile fetch once when the exchange returned a usable access token
    and never otherwise.  It dispatches loginStart first and a terminal
    loginSuccess or loginFailure last, and that last action alone fixes
    the auth state it leaves.  Nothing is dispatched in between, with
    one exception: when [onSuccess] throws, the loginSuccess already
    dispatched is followed by the loginFailure of the catch block. *)
Theorem attempt_call_pattern props a w :
  let r := run_attempt props a w in
  let l := emitted w (fst r) in
  exchange_calls l =
    (if truthy_string (credential (response a))
     then [credential (response a)] else []) /\
  getMe_calls l =
    (if truthy_string (credential (response a)) &&
        has_access_token (exchange a)
     then [OGetMe] else []) /\
  exists earlier act,
    dispatched l = loginStart :: earlier ++ [act] /\
    act <> loginStart /\
    (forall s, auth (fst r) = authReducer s act) /\
    (earlier = [] \/
     exists ud e,
       onSuccess props = Throws e /\
       profile a = Fulfilled (Some ud) /\
       earlier = [loginSuccess (profile_of ud)] /\
       act = loginFailure (getErrorMessage e)).
Proof.
  intros r l. subst l r.
  rewrite run_attempt_emitted, run_attempt_auth. cbv zeta.
  attempt_cases props a; cbn;
    (split; [reflexivity|]; split; [reflexivity|]);
    first
      [ exists [];
        eexists; split; [reflexivity|]; split; [discriminate|];
        split; [intros s; reflexivity|by left]
      | eexists [_];
        eexists; split; [reflexivity|]; split; [discriminate|];
        split; [intros s; reflexivity|];
        right; eexists _, _; repeat split; reflexivity ].
Qed.

(** X14. The success notification is shown, once and for 3 seconds,
    exactly when the attempt fetched a profile; [onSuccess], when it was
    given, is called once right after it; and the 1000 ms close timer is
    armed, last, unless [onSuccess] threw.  The attempt ends
    authenticated exactly when it fetched a profile and [onSuccess] did
    not throw, so the timer is armed exactly when the attempt ends
    authenticated; an attempt that fetched no profile does none of the
    three. *)
Theorem success_effects_of_attempt props a w :
  let r := run_attempt props a w in
  success_effects (emitted w (fst r)) =
    (if profile_fetched a then
       OMessageSuccess (t props "auth.loginSuccess") 3 ::
       match onSuccess props with
       | NotProvided => [OSetTimeout 1000]
       | Returns => [OOnSuccess; OSetTimeout 1000]
       | Throws _ => [OOnSuccess]
       end
     else []) /\
  is_authenticated (auth (fst r)) =
    profile_fetched a &&
    match onSuccess props with
    | Throws _ => false
    | _ => true
    end.
Proof.
  intros r. subst r.
  rewrite run_attempt_emitted, run_attempt_auth.
  unfold profile_fetched. cbv zeta.
  attempt_cases props a; split; reflexivity.
Qed.

(** A throwing [onSuccess] reaches the catch block: loginSuccess has
    been dispatched and the success message shown, then the failure is
    recorded and notified, and the close timer is never armed; the
    cookies written before stay. *)
Example throwing_onSuccess_reaches_catch :
  let r := run_attempt props_throwing attempt_alice w0 in
  auth (fst r) =
    {| status := failed; user := None; error := Some "observer failed" |} /\
  dispatched (log (fst r)) =
    [loginStart; loginSuccess (profile_of alice);
     loginFailure "observer failed"] /\
  success_effects (log (fst r)) =
    [OMessageSuccess "auth.loginSuccess" 3; OOnSuccess] /\
  error_messages (log (fst r)) = [OMessageError "observer failed" 5] /\
  value <$> cookies (fst r) !! "access_token" = Some "acc1".
Proof. repeat split. Qed.

(** X5. The published user comes from the profile fetch and nowhere
    else: whenever an attempt leaves a user in the auth state, the
    profile fetch returned a profile with the same id, email, username
    and confirmed flag.  The role is passed on as role_id, except that a
    missing role and role 0 are both published as undefined. *)
Theorem published_user_is_fetched_profile props a w u :
  user (auth (fst (run_attempt props a w))) = Some u ->
  exists ud,
    profile a = Fulfilled (Some ud) /\
    id u = me_id ud /\ email u = me_email ud /\
    username u = me_username ud /\ confirmed u = me_confirmed ud /\
    role_id u <> Some 0 /\
    (forall n, n <> 0 -> (role_id u = Some n <-> me_role ud = Some n)) /\
    (role_id u = None <-> me_role ud = None \/ me_role ud = Some 0).
Proof.
  rewrite run_attempt_auth.
  destruct (truthy_string (credential (response a))); [|discriminate].
  destruct (exchange a) as [result|e]; [|discriminate].
  destruct (tokens_of result) as [tok|]; [|discriminate].
  destruct (profile a) as [[ud|]|e]; cbn; try discriminate.
  assert (user (match onSuccess props with
                | Throws e =>
                    {| status := failed; user := None;
                       error := Some (getErrorMessage e) |}
                | _ =>
                    {| status := authenticated;
                       user := Some (profile_of ud); error := None |}
                end) = Some u -> profile_of ud = u) as Hu.
  { destruct (onSuccess props); cbn; congruence. }
  intros <-%Hu. exists ud. cbn. repeat split; try done.
  - destruct (me_role ud) as [n|]; cbn; [|done].
    destruct (decide (n = 0)); congruence.
  - destruct (me_role ud) as [m|]; cbn; [|done].
    destruct (decide (m = 0)); congruence.
  - destruct (me_role ud) as [m|]; cbn; [|done].
    destruct (decide (m = 0)); congruence.
  - destruct (me_role ud) as [m|]; cbn; [|auto].
    destruct (decide (m = 0)); [subst; auto|discriminate].
  - destruct (me_role ud) as [m|]; cbn; [|done].
    destruct (decide (m = 0)); [done|]. intros [?|?]; congruence.
Qed.

Lemma published_user_is_fetched_profile_witness :
  exists ud, profile attempt_alice = Fulfilled (Some ud) /\ me_id ud = 7.
Proof.
  destruct (published_user_is_fetched_profile props0 attempt_alice w0
              {| id := 7; email := "a@b.com"; username := "alice";
                 confirmed := true; role_id := None |} eq_refl)
    as (ud & Hp & Hid & _).
  exists ud. split; [exact Hp|]. by rewrite <- Hid.
Defined.
